(** * Collaborative filtering by gradient descent

    A shallow embedding of the numerical kernel of
    [14-recommender-systems.ipynb] (cell 2): the two Python functions
    [gradient_descent] and [cost], which work on numpy [float64] arrays.

    - Numbers are IEEE 754 binary64 values: Rocq's primitive [float], whose
      operations round to nearest even exactly as numpy's do.  The missing
      rating [np.nan] is [nan].  What is proved of the operations for all
      numbers rests on the Standard Library's specification of them
      ([FloatAxioms], over [SpecFloat]).
    - A 2-D [ndarray] is its shape together with its rows; every array is
      two-dimensional and of dtype [float64], and owns its buffer.
    - Sums are accumulated in index order from [0.0], with a rounding after
      every multiplication and every addition.  numpy leaves the order of
      the additions inside [@] and [.sum()] to its BLAS (which may also
      fuse a multiplication with the addition that follows it) and to
      pairwise summation, so the last bits of a sum of several products may
      differ from those computed here.  The counterexamples below, and
      every concrete value stated, are on inputs where this cannot matter:
      one feature, and sums of a single term or of small integers.
    - The arrays [theta], [x] and [y] are Python objects that the functions
      receive by reference and (for [x] and [theta]) update in place, so the
      functions are written in a state-and-exception monad over a heap of
      array objects.  An exception leaves the heap as it was when raised. *)

From Stdlib Require Import ZArith List Lia Bool Floats.
From stdpp Require Import gmap list.

Open Scope float_scope.

(** ** numpy arrays *)

(** A two-dimensional [float64] array: [shape = (nrows, ncols)] and the rows
    of the buffer.  The shape is kept apart from the rows because an array
    may have no row and still have columns ([np.zeros((0, 3))]). *)
Record ndarray : Type := Ndarray {
  nrows : nat;
  ncols : nat;
  rows : list (list float)
}.

(** The buffer agrees with the shape. *)
Definition wf (a : ndarray) : Prop :=
  length (rows a) = nrows a ∧ Forall (λ r, length r = ncols a) (rows a).

(** [a] is a well-formed array of shape [(r, c)]. *)
Definition shaped (r c : nat) (a : ndarray) : Prop :=
  nrows a = r ∧ ncols a = c ∧ wf a.

Definition row (a : ndarray) (i : nat) : list float := nth i (rows a) [].

Definition col (a : ndarray) (j : nat) : list float :=
  map (λ r, nth j r nan) (rows a).

(** [a[i, j]] *)
Definition get (a : ndarray) (i j : nat) : float := nth j (row a i) nan.

(** The array of shape [(r, c)] whose entry [(i, j)] is [f i j]. *)
Definition mk (r c : nat) (f : nat → nat → float) : ndarray :=
  Ndarray r c (map (λ i, map (λ j, f i j) (seq 0 c)) (seq 0 r)).

(** [a.T] *)
Definition transpose (a : ndarray) : ndarray :=
  mk (ncols a) (nrows a) (λ i j, get a j i).

(** The inner product of a row with a column: the products are added one
    after the other into an accumulator that starts at [0.0], with a
    separate multiplication and addition (numpy's own inner loop of
    [matmul]). *)
Definition dot (u v : list float) : float :=
  fold_left (λ acc p, acc + fst p * snd p) (combine u v) 0.

(** [a @ b]; numpy raises [ValueError] when the inner dimensions differ. *)
Definition matmul (a b : ndarray) : option ndarray :=
  if Nat.eqb (ncols a) (nrows b)
  then Some (mk (nrows a) (ncols b) (λ i j, dot (row a i) (col b j)))
  else None.

(** numpy's broadcasting of one dimension: equal sizes, or one of them 1. *)
Definition broadcast_dim (m n : nat) : option nat :=
  if Nat.eqb m n then Some m
  else if Nat.eqb m 1 then Some n
  else if Nat.eqb n 1 then Some m
  else None.

(** Reading a broadcast operand: a dimension of size 1 is repeated. *)
Definition bget (a : ndarray) (i j : nat) : float :=
  get a (if Nat.eqb (nrows a) 1 then 0%nat else i)
        (if Nat.eqb (ncols a) 1 then 0%nat else j).

(** An elementwise binary operation [a op b] with broadcasting; numpy raises
    [ValueError] when the shapes cannot be broadcast together. *)
Definition elementwise (op : float → float → float) (a b : ndarray)
  : option ndarray :=
  match broadcast_dim (nrows a) (nrows b), broadcast_dim (ncols a) (ncols b) with
  | Some r, Some c => Some (mk r c (λ i j, op (bget a i j) (bget b i j)))
  | _, _ => None
  end.

(** [a - b] and [a + b] *)
Definition sub : ndarray → ndarray → option ndarray := elementwise PrimFloat.sub.
Definition add : ndarray → ndarray → option ndarray := elementwise PrimFloat.add.

(** [s * a] for a Python scalar [s] *)
Definition scale (s : float) (a : ndarray) : ndarray :=
  mk (nrows a) (ncols a) (λ i j, s * get a i j).

(** The value [a] holds after [a -= b]: the broadcast shape must be the shape
    of [a] itself, otherwise numpy raises [ValueError] and [a] is untouched. *)
Definition isub (a b : ndarray) : option ndarray :=
  match broadcast_dim (nrows a) (nrows b), broadcast_dim (ncols a) (ncols b) with
  | Some r, Some c =>
      if Nat.eqb r (nrows a) && Nat.eqb c (ncols a)
      then Some (mk r c (λ i j, get a i j - bget b i j))
      else None
  | _, _ => None
  end.

(** The value [tmp] holds after [tmp[np.isnan(tmp)] = 0]. *)
Definition mask_nan (a : ndarray) : ndarray :=
  mk (nrows a) (ncols a)
     (λ i j, if is_nan (get a i j) then 0 else get a i j).

(** [a ** 2], which numpy evaluates as [np.square(a)], that is [a * a]. *)
Definition square (a : ndarray) : ndarray :=
  mk (nrows a) (ncols a) (λ i j, get a i j * get a i j).

(** [a.sum()]: all the entries, row after row, added into an accumulator
    that starts at [0.0]. *)
Definition asum (a : ndarray) : float :=
  fold_left PrimFloat.add (concat (rows a)) 0.

(** ** The heap of array objects, exceptions, and the monad *)

Definition loc : Type := nat.
Bind Scope nat_scope with loc.

Inductive exn : Type :=
| ValueError   (* numpy: operands of incompatible shapes *)
| Unbound.     (* a reference to no object; Python cannot produce one *)

Inductive res (A : Type) : Type :=
| Ok (a : A)
| Raise (e : exn).
Arguments Ok {A} a.
Arguments Raise {A} e.

(** A computation takes the heap and gives a result or an exception, with
    the heap as it is at that point. *)
Definition M (A : Type) : Type := gmap loc ndarray → res A * gmap loc ndarray.

Definition ret {A} (a : A) : M A := λ σ, (Ok a, σ).

Definition raise {A} (e : exn) : M A := λ σ, (Raise e, σ).

Definition bind {A B} (m : M A) (k : A → M B) : M B :=
  λ σ, match m σ with
       | (Ok a, σ') => k a σ'
       | (Raise e, σ') => (Raise e, σ')
       end.

Notation "'let*' x ':=' m 'in' k" := (bind m (λ x, k))
  (at level 10, x name, m at level 100, k at level 200).
Notation "m ';;' k" := (bind m (λ _, k))
  (at level 100, k at level 200, right associativity).

(** Reading the array a name refers to. *)
Definition load (l : loc) : M ndarray :=
  λ σ, match σ !! l with
       | Some a => (Ok a, σ)
       | None => (Raise Unbound, σ)
       end.

(** Overwriting the buffer of the array [l] in place. *)
Definition store (l : loc) (a : ndarray) : M unit :=
  λ σ, (Ok tt, <[l := a]> σ).

Arguments load l%_nat.
Arguments store l%_nat a.

(** A numpy operation that may raise [ValueError]. *)
Definition np {A} (o : option A) : M A :=
  match o with
  | Some a => ret a
  | None => raise ValueError
  end.

(** [for _ in range(n): body] *)
Fixpoint for_range (n : nat) (body : M unit) : M unit :=
  match n with
  | O => ret tt
  | S n' => body ;; for_range n' body
  end.

(** ** The notebook's functions *)

(** One pass through the body of the loop of [gradient_descent]:
<<
    tmp = theta @ x.T - y
    tmp[np.isnan(tmp)] = 0
    dx = tmp.T @ theta + beta * x
    dtheta = tmp @ x + beta * theta
    x -= alpha * dx
    theta -= alpha * dtheta
>>
    Every statement reads the arrays its names refer to at that moment.
    [tmp], [dx] and [dtheta] are new arrays that no other name refers to, so
    they are local values here and not objects of the heap. *)
Definition gradient_step (theta x y : loc) (alpha beta : float) : M unit :=
  let* Θ := load theta in
  let* X := load x in
  let* p := np (matmul Θ (transpose X)) in
  let* Y := load y in
  let* tmp := np (sub p Y) in
  let tmp := mask_nan tmp in
  let* Θ := load theta in
  let* g := np (matmul (transpose tmp) Θ) in
  let* X := load x in
  let* dx := np (add g (scale beta X)) in
  let* X := load x in
  let* g := np (matmul tmp X) in
  let* Θ := load theta in
  let* dtheta := np (add g (scale beta Θ)) in
  let* X := load x in
  let* X' := np (isub X (scale alpha dx)) in
  store x X' ;;
  let* Θ := load theta in
  let* Θ' := np (isub Θ (scale alpha dtheta)) in
  store theta Θ'.

(** [def gradient_descent(theta, x, y, max_iter=1_000, alpha=0.1, beta=0)]:
    [range(max_iter)] is empty for a negative [max_iter]; the function
    returns the two names it was given. *)
Definition gradient_descent (theta x y : loc) (max_iter : Z) (alpha beta : float)
  : M (loc * loc) :=
  for_range (Z.to_nat max_iter) (gradient_step theta x y alpha beta) ;;
  ret (theta, x).

(** [def cost(theta, x, y)]:
<<
    tmp = theta @ x.T - y
    tmp[np.isnan(tmp)] = 0
    return 0.5 * (tmp ** 2).sum()
>> *)
Definition cost (theta x y : loc) : M float :=
  let* Θ := load theta in
  let* X := load x in
  let* p := np (matmul Θ (transpose X)) in
  let* Y := load y in
  let* tmp := np (sub p Y) in
  let tmp := mask_nan tmp in
  ret (0.5 * asum (square tmp)).

(** The loop of cell 4, which takes one step at a time and records the cost
    after each, for any number of passes and any [alpha] and [beta]:
<<
    costs = []
    for i in range(10_000):
        theta, x = gradient_descent(theta, x, y, max_iter=1, alpha=0.001, beta=0)
        costs.append([i, cost(theta, x, y)])
>>
    [i] is the value of the loop variable and [costs] the list so far. *)
Fixpoint training_loop (n : nat) (i : Z) (theta x y : loc) (alpha beta : float)
    (costs : list (Z * float)) : M (list (Z * float)) :=
  match n with
  | O => ret costs
  | S n' =>
      let* r := gradient_descent theta x y 1 alpha beta in
      let* c := cost r.1 r.2 y in
      training_loop n' (i + 1) r.1 r.2 y alpha beta (costs ++ [(i, c)])
  end.

Arguments gradient_step (theta x y)%_nat (alpha beta)%_float.
Arguments gradient_descent (theta x y)%_nat max_iter%_Z (alpha beta)%_float.
Arguments cost (theta x y)%_nat.
Arguments training_loop n%_nat i%_Z (theta x y)%_nat (alpha beta)%_float costs.

(** ** The update rule and the cost, entry by entry

    The matrices of the specification written as tables of their entries,
    with [sumf n f] for the sum of [f 0], ..., [f (n-1)] accumulated in that
    order from [0.0].  The proofs below show that the code computes these
    tables. *)

Definition sumf (n : nat) (f : nat → float) : float :=
  fold_left (λ acc p, acc + f p) (seq 0 n) 0.

(** All the entries of an [r] by [c] table, row after row. *)
Definition sum2 (r c : nat) (f : nat → nat → float) : float :=
  fold_left (λ acc ij, acc + f ij.1 ij.2) (list_prod (seq 0 r) (seq 0 c)) 0.

(** Entry [(a, b)] of [Θ·Xᵗ]: the rating predicted for user [a], item [b]. *)
Definition prediction (Θ X : ndarray) (a b : nat) : float :=
  sumf (ncols Θ) (λ p, get Θ a p * get X b p).

(** [R = Θ·Xᵗ − Y] with every entry that is not a number set to zero: the
    mask of the code, which tests the difference. *)
Definition residual (Θ X Y : ndarray) : ndarray :=
  mk (nrows Θ) (nrows X)
     (λ a b, let r := prediction Θ X a b - get Y a b in
             if is_nan r then 0 else r).

(** [R = Θ·Xᵗ − Y] with the entries at the missing positions of [Y] set to
    zero, and no other: the mask in the words of the specification, which
    tests [Y]. *)
Definition residual_masked_by_y (Θ X Y : ndarray) : ndarray :=
  mk (nrows Θ) (nrows X)
     (λ a b, if is_nan (get Y a b) then 0
             else prediction Θ X a b - get Y a b).

(** [ΔX = Rᵗ·Θ + beta·X] *)
Definition delta_x (R Θ X : ndarray) (beta : float) : ndarray :=
  mk (nrows X) (ncols X)
     (λ b c, sumf (nrows Θ) (λ a, get R a b * get Θ a c) + beta * get X b c).

(** [ΔΘ = R·X + beta·Θ] *)
Definition delta_theta (R Θ X : ndarray) (beta : float) : ndarray :=
  mk (nrows Θ) (ncols Θ)
     (λ a c, sumf (nrows X) (λ b, get R a b * get X b c) + beta * get Θ a c).

(** [A − alpha·D] *)
Definition descend (A D : ndarray) (alpha : float) : ndarray :=
  mk (nrows A) (ncols A) (λ i j, get A i j - alpha * get D i j).

Definition next_x (Θ X Y : ndarray) (alpha beta : float) : ndarray :=
  descend X (delta_x (residual Θ X Y) Θ X beta) alpha.

Definition next_theta (Θ X Y : ndarray) (alpha beta : float) : ndarray :=
  descend Θ (delta_theta (residual Θ X Y) Θ X beta) alpha.

(** [n] successive steps, each from the matrices the previous one left. *)
Fixpoint descent (n : nat) (Θ X Y : ndarray) (alpha beta : float)
  : ndarray * ndarray :=
  match n with
  | O => (Θ, X)
  | S n' => descent n' (next_theta Θ X Y alpha beta) (next_x Θ X Y alpha beta)
                    Y alpha beta
  end.

(** Half the sum of the squares of the entries of [R]. *)
Definition half_sum_squares (R : ndarray) : float :=
  0.5 * sum2 (nrows R) (ncols R) (λ a b, get R a b * get R a b).

(** ** Predicates on numbers and arrays *)

Definition sf_nonneg (s : spec_float) : Prop :=
  match s with
  | S754_zero false | S754_infinity false | S754_finite false _ _ => True
  | _ => False
  end.

Definition sf_fin (s : spec_float) : Prop :=
  match s with
  | S754_zero _ | S754_finite _ _ _ => True
  | _ => False
  end.

Definition sf_is_zero (s : spec_float) : Prop :=
  match s with S754_zero _ => True | _ => False end.

Definition nonneg (f : float) : Prop := sf_nonneg (Prim2SF f).

Definition is_neg_zero (f : float) : bool :=
  match classify f with NZero => true | _ => false end.

Definition sf_signed (s : bool) (r : spec_float) : Prop :=
  match r with
  | S754_zero s' | S754_infinity s' | S754_finite s' _ _ => s' = s
  | S754_nan => False
  end.

Definition not_neg_zero (f : float) : Prop := Prim2SF f ≠ S754_zero true.

Definition is_a_zero (f : float) : Prop := sf_is_zero (Prim2SF f).

(** The shapes on which a pass through the loop of [gradient_descent]
    raises no exception: [theta] and [x] have as many columns, and [y] has
    the rows of [theta] or one row, and as many columns as [x] has rows or
    one column. *)
Definition step_shapes_ok (Θ X Y : ndarray) : bool :=
  Nat.eqb (ncols Θ) (ncols X)
  && (Nat.eqb (nrows Y) (nrows Θ) || Nat.eqb (nrows Y) 1)
  && (Nat.eqb (ncols Y) (nrows X) || Nat.eqb (ncols Y) 1).

(** The shapes on which [cost] raises no exception: [theta] and [x] have as
    many columns, and [theta @ x.T] and [y] can be broadcast together. *)
Definition cost_shapes_ok (Θ X Y : ndarray) : bool :=
  Nat.eqb (ncols Θ) (ncols X)
  && bool_decide (is_Some (broadcast_dim (nrows Θ) (nrows Y)))
  && bool_decide (is_Some (broadcast_dim (nrows X) (ncols Y))).

(** Every entry of [a] satisfies [P]. *)
Definition all_entries (P : float → bool) (a : ndarray) : bool :=
  forallb (forallb P) (rows a).

(** An observed rating is a real number; a missing one is [nan]. *)
Definition rating (f : float) : bool := is_finite f || is_nan f.

(** [a] with its row [u] replaced by [v]. *)
Definition set_row (u : nat) (v : list float) (a : ndarray) : ndarray :=
  Ndarray (nrows a) (ncols a) (<[u := v]> (rows a)).

(** [a] without its row [u]. *)
Definition drop_row (u : nat) (a : ndarray) : ndarray :=
  Ndarray (nrows a - 1) (ncols a) (delete u (rows a)).

(** A computation that writes to no object outside [L]. *)
Definition writes_only {A} (L : list loc) (m : M A) : Prop :=
  ∀ σ l, l ∉ L → (m σ).2 !! l = σ !! l.

(** A computation that writes to no object at all. *)
Definition reads_only {A} (m : M A) : Prop := ∀ σ, (m σ).2 = σ.

(** ** The notebook's example (cell 4) *)

Definition example_y : ndarray :=
  Ndarray 5 6
    [ [4; 5; 1; nan; 2; 2];
      [5; 4; 1; 2; 1; 1];
      [0; nan; 3; 4; 5; 5];
      [1; 0; 3; 5; 4; 4];
      [nan; nan; nan; nan; nan; nan] ].

Definition example_x : ndarray :=
  Ndarray 6 2 [ [1; 4.5]; [3.5; 3]; [0.75; 0.75]; [0.25; 4.25]; [3; 3.5]; [0.125; 4.75] ].

Definition example_theta : ndarray :=
  Ndarray 5 2 [ [0.75; 0.25]; [0.125; 0.125]; [0.25; 0.5]; [0.375; 0.25]; [0.5; 0.125] ].

Definition example_heap : gmap loc ndarray :=
  <[0%nat := example_theta]> (<[1%nat := example_x]> (<[2%nat := example_y]> ∅)).

(** ** Small inputs *)

(** A 2×1 [theta] with a 1×1 [x] and a 1×1 [y]: the rows of [theta] and
    [y] differ, and numpy broadcasts [y]. *)
Definition bcast_theta : ndarray := Ndarray 2 1 [ [1]; [2] ].
Definition bcast_x : ndarray := Ndarray 1 1 [ [1] ].
Definition bcast_y : ndarray := Ndarray 1 1 [ [1] ].
Definition bcast_heap : gmap loc ndarray :=
  <[0%nat := bcast_theta]> (<[1%nat := bcast_x]> (<[2%nat := bcast_y]> ∅)).

(** One user, one item, one feature. *)
Definition tiny_theta : ndarray := Ndarray 1 1 [ [1] ].
Definition tiny_x : ndarray := Ndarray 1 1 [ [1] ].
Definition tiny_y : ndarray := Ndarray 1 1 [ [0] ].
Definition tiny_heap : gmap loc ndarray :=
  <[0%nat := tiny_theta]> (<[1%nat := tiny_x]> (<[2%nat := tiny_y]> ∅)).

(** Finite entries whose products overflow: [2.0 ** 600] squared is above
    the largest binary64 number. *)
Definition big_theta : ndarray := Ndarray 1 1 [ [0x1p+600] ].
Definition big_x : ndarray := Ndarray 1 1 [ [0x1p+600] ].
Definition big_heap : gmap loc ndarray :=
  <[0%nat := big_theta]> (<[1%nat := big_x]> (<[2%nat := tiny_y]> ∅)).

(** One user, one item, and the rating 1, which is observed. *)
Definition clash_y : ndarray := Ndarray 1 1 [ [1] ].

(** A user with no rating at all, and one item; its feature, or the user's
    parameter, has grown to infinity. *)
Definition unrated_y : ndarray := Ndarray 1 1 [ [nan] ].
Definition inf_x : ndarray := Ndarray 1 1 [ [infinity] ].
Definition inf_theta : ndarray := Ndarray 1 1 [ [infinity] ].
Definition inf_x_heap : gmap loc ndarray :=
  <[0%nat := tiny_theta]> (<[1%nat := inf_x]> (<[2%nat := unrated_y]> ∅)).
Definition inf_theta_heap : gmap loc ndarray :=
  <[0%nat := inf_theta]> (<[1%nat := tiny_x]> (<[2%nat := unrated_y]> ∅)).
Definition unrated_heap : gmap loc ndarray :=
  <[0%nat := tiny_theta]> (<[1%nat := tiny_x]> (<[2%nat := unrated_y]> ∅)).

(** The parameter of the one user is infinite and the feature of the one
    item is zero: the prediction [inf * 0] is not a number, at a position
    where the rating is observed. *)
Definition zero_x : ndarray := Ndarray 1 1 [ [0] ].
Definition nan_pred_heap : gmap loc ndarray :=
  <[0%nat := inf_theta]> (<[1%nat := zero_x]> (<[2%nat := clash_y]> ∅)).

(** A rating that is infinite, against a prediction that overflows. *)
Definition inf_y : ndarray := Ndarray 1 1 [ [infinity] ].
Definition inf_rating_heap : gmap loc ndarray :=
  <[0%nat := big_theta]> (<[1%nat := big_x]> (<[2%nat := inf_y]> ∅)).

(** An item whose only feature is the negative zero. *)
Definition negzero_x : ndarray := Ndarray 1 1 [ [neg_zero] ].
Definition negzero_heap : gmap loc ndarray :=
  <[0%nat := tiny_theta]> (<[1%nat := negzero_x]> (<[2%nat := clash_y]> ∅)).

(** ** Definitions for the further properties *)

(** [np.broadcast_to(a, (r, c))]: a dimension of size 1 of [a] repeated. *)
Definition expand (r c : nat) (a : ndarray) : ndarray := mk r c (bget a).

(** What one pass through the loop leaves in an array [A] that is passed
    both as [theta] and as [x]: both gradients are computed from [A], then
    [x -= alpha * dx] updates it, and [theta -= alpha * dtheta] starts from
    the array so updated. *)
Definition aliased_next (A Y : ndarray) (alpha beta : float) : ndarray :=
  let R := residual A A Y in
  descend (descend A (delta_x R A A beta) alpha) (delta_theta R A A beta) alpha.

(** One user and two items, the first rated 1, the second not rated. *)
Definition fitted_x : ndarray := Ndarray 2 1 [ [1]; [2] ].
Definition fitted_y : ndarray := Ndarray 1 2 [ [1; nan] ].
Definition fitted_heap : gmap loc ndarray :=
  <[0%nat := tiny_theta]> (<[1%nat := fitted_x]> (<[2%nat := fitted_y]> ∅)).

(** * Proofs *)

(** ** IEEE binary64: what the arithmetic guarantees *)

Lemma SFeqb_refl s : s ≠ S754_nan → SFeqb s s = true.
Proof.
  destruct s as [[]|[]| |[] m e]; try done; intros _; unfold SFeqb; simpl;
    rewrite Z.compare_refl, Pos.compare_cont_refl; done.
Qed.

Lemma is_nan_SF f : is_nan f = true ↔ Prim2SF f = S754_nan.
Proof.
  unfold is_nan. rewrite FloatAxioms.eqb_spec. split.
  - intros H. destruct (Prim2SF f) eqn:E; try done;
      rewrite SFeqb_refl in H; done.
  - intros ->. reflexivity.
Qed.

Lemma is_nan_false_SF f : is_nan f = false ↔ Prim2SF f ≠ S754_nan.
Proof.
  rewrite <- is_nan_SF. destruct (is_nan f); split; congruence.
Qed.

Lemma is_finite_SF f : is_finite f = true ↔ sf_fin (Prim2SF f).
Proof.
  unfold is_finite, is_infinity, is_nan.
  rewrite !FloatAxioms.eqb_spec, abs_spec.
  change (Prim2SF infinity) with (S754_infinity false).
  destruct (Prim2SF f) as [[]|[]| |[] m e]; simpl; try (split; done);
    unfold SFeqb; simpl; rewrite Z.compare_refl, Pos.compare_cont_refl; simpl; split; done.
Qed.

(** *** Rounding keeps the sign and never invents a NaN *)

Lemma shr_1_div2 mrs : (0 ≤ shr_m mrs)%Z → shr_m (shr_1 mrs) = Z.div2 (shr_m mrs).
Proof. destruct mrs as [[|[p|p|]|p] r s]; simpl; intros; done || lia. Qed.

Lemma iter_shr_1_lower p : ∀ mrs c,
  (0 ≤ c)%Z → (c * 2 ^ Zpos p ≤ shr_m mrs)%Z →
  (c ≤ shr_m (SpecFloat.iter_pos shr_1 p mrs))%Z.
Proof.
  assert (Hstep : ∀ mrs c, (0 ≤ c)%Z → (c * 2 ≤ shr_m mrs)%Z →
                           (c ≤ shr_m (shr_1 mrs))%Z).
  { intros mrs c Hc Hm. rewrite shr_1_div2 by lia.
    rewrite Z.div2_div. apply Z.div_le_lower_bound; lia. }
  induction p as [p IH|p IH|]; intros mrs c Hc Hm; simpl.
  - rewrite (Pos2Z.inj_xI p), Z.pow_add_r, Z.pow_mul_r, Z.pow_1_r in Hm by lia.
    change (2 ^ 2)%Z with 4%Z in Hm.
    assert (Hp : (0 < 2 ^ Zpos p)%Z) by (apply Z.pow_pos_nonneg; lia).
    apply IH; [lia|]. apply IH; [nia|]. apply Hstep; [nia|].
    replace (4 ^ Zpos p)%Z with (2 ^ Zpos p * 2 ^ Zpos p)%Z in Hm
      by (rewrite <- Z.pow_mul_l; reflexivity).
    nia.
  - rewrite (Pos2Z.inj_xO p), Z.pow_mul_r in Hm by lia.
    change (2 ^ 2)%Z with 4%Z in Hm.
    assert (Hp : (0 < 2 ^ Zpos p)%Z) by (apply Z.pow_pos_nonneg; lia).
    replace (4 ^ Zpos p)%Z with (2 ^ Zpos p * 2 ^ Zpos p)%Z in Hm
      by (rewrite <- Z.pow_mul_l; reflexivity).
    apply IH; [lia|]. apply IH; [nia|]. nia.
  - apply Hstep; [lia|]. rewrite Z.pow_1_r in Hm. lia.
Qed.

Lemma iter_shr_1_nonneg p : ∀ mrs,
  (0 ≤ shr_m mrs)%Z → (0 ≤ shr_m (SpecFloat.iter_pos shr_1 p mrs))%Z.
Proof.
  intros mrs Hm. apply iter_shr_1_lower; lia.
Qed.

Lemma shr_m_of_loc m l : shr_m (shr_record_of_loc m l) = m.
Proof. destruct l as [|[]]; reflexivity. Qed.

Lemma shr_fexp_nonneg prec emax m e l :
  (0 ≤ m)%Z → (0 ≤ shr_m (fst (shr_fexp prec emax m e l)))%Z.
Proof.
  intros Hm. unfold shr_fexp, shr.
  destruct (fexp prec emax (Zdigits2 m + e) - e)%Z; simpl;
    try (rewrite shr_m_of_loc; done).
  apply iter_shr_1_nonneg. rewrite shr_m_of_loc. done.
Qed.

Lemma round_nearest_even_ge m l : (m ≤ round_nearest_even m l)%Z.
Proof. destruct l as [|[]]; simpl; try lia. destruct (Z.even m); lia. Qed.

Lemma binary_round_aux_signed prec emax s m e l :
  (0 ≤ m)%Z → sf_signed s (binary_round_aux prec emax s m e l).
Proof.
  intros Hm. unfold binary_round_aux.
  pose proof (shr_fexp_nonneg prec emax m e l Hm) as H1.
  destruct (shr_fexp prec emax m e l) as [mrs' e']. simpl in H1.
  set (m' := round_nearest_even _ _).
  assert (Hm' : (0 ≤ m')%Z).
  { pose proof (round_nearest_even_ge (shr_m mrs') (loc_of_shr_record mrs')).
    unfold m'. lia. }
  pose proof (shr_fexp_nonneg prec emax m' e' loc_Exact Hm') as H2.
  destruct (shr_fexp prec emax m' e' loc_Exact) as [mrs'' e'']. simpl in H2.
  destruct (shr_m mrs''); simpl; try done; try lia.
  destruct (Z.leb _ _); done.
Qed.

Lemma binary_round_signed prec emax s m e :
  sf_signed s (binary_round prec emax s m e).
Proof.
  unfold binary_round. destruct (shl_align _ _ _) as [mz ez].
  apply binary_round_aux_signed. lia.
Qed.

Lemma binary_normalize_not_nan prec emax m e :
  binary_normalize prec emax m e false ≠ S754_nan.
Proof.
  destruct m as [|p|p]; simpl; try done.
  - pose proof (binary_round_signed prec emax false p e) as H.
    destruct (binary_round _ _ _ _ _); done.
  - pose proof (binary_round_signed prec emax true p e) as H.
    destruct (binary_round _ _ _ _ _); done.
Qed.

(** *** Rounding a non-zero value at or above the least exponent is not zero *)

Lemma digits2_pos_lower m : (2 ^ (Zpos (digits2_pos m) - 1) ≤ Zpos m)%Z.
Proof.
  induction m as [m IH|m IH|]; simpl digits2_pos; try (simpl; lia).
  - rewrite Pos2Z.inj_succ.
    replace (Z.succ (Zpos (digits2_pos m)) - 1)%Z
      with (Z.succ (Zpos (digits2_pos m) - 1))%Z by lia.
    rewrite Z.pow_succ_r by lia. lia.
  - rewrite Pos2Z.inj_succ.
    replace (Z.succ (Zpos (digits2_pos m)) - 1)%Z
      with (Z.succ (Zpos (digits2_pos m) - 1))%Z by lia.
    rewrite Z.pow_succ_r by lia. lia.
Qed.

Section Rounding.
Variables prec emax : Z.
Hypothesis prec_pos : (0 < prec)%Z.

Lemma shr_fexp_pos m e l :
  (0 < m)%Z → (SpecFloat.emin prec emax ≤ e)%Z →
  (0 < shr_m (fst (shr_fexp prec emax m e l)))%Z
  ∧ (SpecFloat.emin prec emax ≤ snd (shr_fexp prec emax m e l))%Z.
Proof.
  intros Hm He. unfold shr_fexp, shr, fexp.
  destruct m as [|m|m]; try lia. simpl Zdigits2.
  pose proof (digits2_pos_lower m) as Hd.
  destruct (Z.max (Zpos (digits2_pos m) + e - prec) (SpecFloat.emin prec emax) - e)%Z
    as [|n|n] eqn:En; simpl; rewrite ?shr_m_of_loc; try lia.
  split; [|lia].
  assert (1 ≤ shr_m (SpecFloat.iter_pos shr_1 n (shr_record_of_loc (Zpos m) l)))%Z; [|lia].
  apply iter_shr_1_lower; [lia|]. rewrite shr_m_of_loc, Z.mul_1_l.
  etransitivity; [|exact Hd].
  apply Z.pow_le_mono_r; lia.
Qed.

Lemma binary_round_aux_not_zero s m e l :
  (0 < m)%Z → (SpecFloat.emin prec emax ≤ e)%Z →
  ¬ sf_is_zero (binary_round_aux prec emax s m e l).
Proof.
  intros Hm He. unfold binary_round_aux.
  destruct (shr_fexp_pos m e l Hm He) as [H1 H1'].
  destruct (shr_fexp prec emax m e l) as [mrs' e']. simpl in H1, H1'.
  set (m' := round_nearest_even _ _).
  assert (Hm' : (0 < m')%Z).
  { pose proof (round_nearest_even_ge (shr_m mrs') (loc_of_shr_record mrs')).
    unfold m'. lia. }
  destruct (shr_fexp_pos m' e' loc_Exact Hm' H1') as [H2 _].
  destruct (shr_fexp prec emax m' e' loc_Exact) as [mrs'' e'']. simpl in H2.
  destruct (shr_m mrs''); simpl; try lia.
  destruct (Z.leb _ _); simpl; tauto.
Qed.

Lemma binary_round_not_zero s m e :
  (SpecFloat.emin prec emax ≤ e)%Z → ¬ sf_is_zero (binary_round prec emax s m e).
Proof.
  intros He. unfold binary_round.
  destruct (shl_align m e _) as [mz ez] eqn:E.
  apply binary_round_aux_not_zero; [lia|].
  unfold shl_align in E.
  destruct (fexp prec emax (Zpos (digits2_pos m) + e) - e)%Z eqn:E';
    inversion E; subst; try lia.
  unfold fexp. lia.
Qed.

Lemma valid_finite_emin s m e :
  SpecFloat.valid_binary prec emax (S754_finite s m e) = true → (SpecFloat.emin prec emax ≤ e)%Z.
Proof.
  simpl. unfold bounded, canonical_mantissa, fexp.
  intros [H _]%andb_prop. apply Z.eqb_eq in H. lia.
Qed.

(** Only [-0 + -0] is [-0]. *)
Lemma SFadd_neg_zero x y :
  SpecFloat.valid_binary prec emax x = true → SpecFloat.valid_binary prec emax y = true →
  SFadd prec emax x y = S754_zero true →
  x = S754_zero true ∧ y = S754_zero true.
Proof.
  intros Vx Vy.
  destruct x as [[]|[]| |sx mx ex], y as [[]|[]| |sy my ey]; simpl;
    try (intros; split; congruence).
  intros H. exfalso.
  apply valid_finite_emin in Vx, Vy.
  unfold binary_normalize in H.
  destruct (_ + _)%Z as [|p|p]; try done.
  - pose proof (binary_round_signed prec emax false p (Z.min ex ey)) as Hs.
    rewrite H in Hs. done.
  - eapply (binary_round_not_zero true p (Z.min ex ey)); [lia|].
    rewrite H. exact I.
Qed.
End Rounding.

(** *** Facts about binary64 arithmetic *)

Lemma Prim2SF_zero : Prim2SF 0 = S754_zero false.
Proof. reflexivity. Qed.

Lemma sub_nan_r x y : is_nan y = true → is_nan (x - y) = true.
Proof.
  rewrite !is_nan_SF, sub_spec. intros ->.
  unfold SF64sub. destruct (Prim2SF x); reflexivity.
Qed.

Lemma sub_nan_l x y : is_nan x = true → is_nan (x - y) = true.
Proof.
  rewrite !is_nan_SF, sub_spec. intros ->. reflexivity.
Qed.

Lemma sub_not_nan x y :
  is_nan x = false → is_finite y = true → is_nan (x - y) = false.
Proof.
  rewrite !is_nan_false_SF, is_finite_SF, sub_spec. unfold SF64sub.
  destruct (Prim2SF x) as [[]|[]| |sx mx ex], (Prim2SF y) as [[]|[]| |sy my ey];
    simpl; try done.
  intros _ _. apply binary_normalize_not_nan.
Qed.

Lemma sub_zero x : x - 0 = x.
Proof.
  apply Prim2SF_inj. rewrite sub_spec, Prim2SF_zero. unfold SF64sub.
  destruct (Prim2SF x) as [[]|[]| |sx mx ex]; reflexivity.
Qed.

Lemma zero_mul_fin x : is_finite x = true → is_a_zero (0 * x).
Proof.
  unfold is_a_zero. rewrite is_finite_SF, mul_spec, Prim2SF_zero. unfold SF64mul.
  destruct (Prim2SF x) as [[]|[]| |sx mx ex]; simpl; done.
Qed.

Lemma is_neg_zero_SF f : is_neg_zero f = false ↔ not_neg_zero f.
Proof.
  unfold is_neg_zero, not_neg_zero. rewrite classify_spec. unfold SF64classify.
  unfold SFclassify.
  destruct (Prim2SF f) as [[]|[]| |[] m e];
    try destruct (Z.eqb _ _); split; congruence.
Qed.

Lemma sub_a_zero x z : not_neg_zero x → is_a_zero z → x - z = x.
Proof.
  unfold not_neg_zero, is_a_zero. intros Hx Hz.
  apply Prim2SF_inj. rewrite sub_spec. unfold SF64sub.
  destruct (Prim2SF x) as [[]|[]| |sx mx ex], (Prim2SF z) as [[]|[]| |sz mz ez];
    simpl in *; done.
Qed.

Lemma add_a_zero x z : not_neg_zero x → is_a_zero z → x + z = x.
Proof.
  unfold not_neg_zero, is_a_zero. intros Hx Hz.
  apply Prim2SF_inj. rewrite add_spec. unfold SF64add.
  destruct (Prim2SF x) as [[]|[]| |sx mx ex], (Prim2SF z) as [[]|[]| |sz mz ez];
    simpl in *; done.
Qed.

Lemma add_not_neg_zero x y : not_neg_zero x → not_neg_zero (x + y).
Proof.
  unfold not_neg_zero. intros Hx H. rewrite add_spec in H.
  apply SFadd_neg_zero in H as [? _]; try done; apply Prim2SF_valid.
Qed.

Lemma not_neg_zero_0 : not_neg_zero 0.
Proof. done. Qed.

Lemma nonneg_0 : nonneg 0.
Proof. exact I. Qed.

Lemma nonneg_mul_self x : is_nan x = false → nonneg (x * x).
Proof.
  rewrite is_nan_false_SF. unfold nonneg. rewrite mul_spec. unfold SF64mul.
  destruct (Prim2SF x) as [[]|[]| |sx mx ex]; simpl; try done.
  intros _.
  rewrite xorb_nilpotent.
  pose proof (binary_round_aux_signed prec emax false
                (Zpos (mx * mx)) (ex + ex) loc_Exact) as H.
  specialize (H ltac:(lia)).
  destruct (binary_round_aux _ _ _ _ _ _) as [[]|[]| |[] ? ?]; done.
Qed.

Lemma nonneg_add a b : nonneg a → nonneg b → nonneg (a + b).
Proof.
  unfold nonneg. rewrite add_spec. unfold SF64add.
  destruct (Prim2SF a) as [[]|[]| |[] ma ea], (Prim2SF b) as [[]|[]| |[] mb eb];
    simpl; try done.
  intros _ _.
  destruct (shl_align ma ea _) as [ma' ?], (shl_align mb eb _) as [mb' ?]; simpl.
  pose proof (binary_round_signed prec emax false (ma' + mb') (Z.min ea eb)) as H.
  destruct (binary_round _ _ _ _ _) as [[]|[]| |[] ? ?]; done.
Qed.

Lemma nonneg_half_mul a : nonneg a → nonneg (0.5 * a).
Proof.
  unfold nonneg. rewrite mul_spec. unfold SF64mul.
  change (Prim2SF 0.5) with (S754_finite false 4503599627370496 (-53)).
  destruct (Prim2SF a) as [[]|[]| |[] ma ea]; simpl; try done.
  intros _.
  pose proof (binary_round_aux_signed prec emax false
                (Zpos (4503599627370496 * ma)) (-53 + ea) loc_Exact) as H.
  specialize (H ltac:(lia)).
  destruct (binary_round_aux _ _ _ _ _ _) as [[]|[]| |[] ? ?]; done.
Qed.

Lemma nonneg_leb a : nonneg a → (0 <=? a) = true.
Proof.
  unfold nonneg. rewrite leb_spec, Prim2SF_zero.
  destruct (Prim2SF a) as [[]|[]| |[] ma ea]; done.
Qed.

Lemma nonneg_not_nan a : nonneg a → is_nan a = false.
Proof.
  unfold nonneg. rewrite is_nan_false_SF. destruct (Prim2SF a); done.
Qed.

Lemma pos_mul_zero a : is_finite a = true → (0 <? a) = true → a * 0 = 0.
Proof.
  rewrite is_finite_SF, ltb_spec, Prim2SF_zero. intros Hf Hp.
  apply Prim2SF_inj. rewrite mul_spec, Prim2SF_zero. unfold SF64mul.
  destruct (Prim2SF a) as [[]|[]| |[] m e]; done.
Qed.

(** ** Arrays *)

Lemma nth_map_seq {A} (f : nat → A) n i d :
  (i < n)%nat → nth i (map f (seq 0 n)) d = f i.
Proof.
  intros Hi. rewrite (nth_indep _ d (f 0%nat)) by (rewrite length_map, length_seq; lia).
  rewrite (map_nth f (seq 0 n) 0%nat i), seq_nth by lia. reflexivity.
Qed.

Lemma map_seq_nth {A} (l : list A) d :
  map (λ i, nth i l d) (seq 0 (length l)) = l.
Proof.
  induction l as [|a l IH]; [reflexivity|].
  simpl. f_equal. rewrite <- seq_shift, map_map. exact IH.
Qed.

Lemma shaped_mk r c f : shaped r c (mk r c f).
Proof.
  repeat split; simpl.
  - rewrite length_map, length_seq. reflexivity.
  - apply List.Forall_forall. intros l [i [<- _]]%List.in_map_iff.
    rewrite length_map, length_seq. reflexivity.
Qed.

Lemma row_mk r c f i :
  (i < r)%nat → row (mk r c f) i = map (λ j, f i j) (seq 0 c).
Proof. intros Hi. unfold row. simpl. rewrite nth_map_seq by done. reflexivity. Qed.

Lemma get_mk r c f i j :
  (i < r)%nat → (j < c)%nat → get (mk r c f) i j = f i j.
Proof.
  intros Hi Hj. unfold get. rewrite row_mk by done.
  rewrite nth_map_seq by done. reflexivity.
Qed.

Lemma mk_ext r c f g :
  (∀ i j, (i < r)%nat → (j < c)%nat → f i j = g i j) → mk r c f = mk r c g.
Proof.
  intros H. unfold mk. f_equal.
  apply map_ext_in. intros i [_ Hi]%List.in_seq.
  apply map_ext_in. intros j [_ Hj]%List.in_seq. apply H; lia.
Qed.

Lemma shaped_row r c a i :
  shaped r c a → (i < r)%nat → length (row a i) = c.
Proof.
  intros (Hr & Hc & Hl & Hall) Hi. unfold row.
  rewrite List.Forall_forall in Hall. rewrite <- Hc. apply Hall.
  apply nth_In. lia.
Qed.

Lemma row_get r c a i :
  shaped r c a → (i < r)%nat → row a i = map (λ j, get a i j) (seq 0 c).
Proof.
  intros Ha Hi. unfold get.
  rewrite <- (shaped_row r c a i Ha Hi). symmetry. apply map_seq_nth.
Qed.

Lemma col_get r c a j :
  shaped r c a → col a j = map (λ i, get a i j) (seq 0 r).
Proof.
  intros (Hr & Hc & Hl & Hall). unfold col, get, row.
  rewrite <- Hr, <- Hl.
  rewrite <- (map_seq_nth (rows a) []) at 1. rewrite map_map. reflexivity.
Qed.

Lemma mk_get r c a : shaped r c a → mk r c (get a) = a.
Proof.
  intros Ha. pose proof Ha as (Hr & Hc & Hl & Hall).
  destruct a as [r' c' l]. simpl in *. subst r' c'. unfold mk. f_equal.
  transitivity (map (λ i, nth i l []) (seq 0 (length l)));
    [|apply map_seq_nth].
  rewrite Hl. apply map_ext_in. intros i [_ Hi]%List.in_seq.
  rewrite <- (row_get r c (Ndarray r c l) i Ha) by lia. reflexivity.
Qed.

Lemma fold_left_ext_in {A B} (f g : A → B → A) l : ∀ a,
  (∀ a b, In b l → f a b = g a b) → fold_left f l a = fold_left g l a.
Proof.
  induction l as [|b l IH]; intros a H; [reflexivity|]. simpl.
  rewrite H by (left; reflexivity). apply IH. intros; apply H; right; done.
Qed.

Lemma sumf_ext n f g :
  (∀ p, (p < n)%nat → f p = g p) → sumf n f = sumf n g.
Proof.
  intros H. unfold sumf. apply fold_left_ext_in.
  intros a p [_ Hp]%List.in_seq. rewrite H by lia. reflexivity.
Qed.

Lemma dot_map {A} (f g : A → float) (l : list A) :
  dot (map f l) (map g l) = fold_left (λ acc p, acc + f p * g p) l 0.
Proof.
  unfold dot. generalize 0. induction l as [|a l IH]; intros acc; [reflexivity|].
  simpl. apply IH.
Qed.

Lemma dot_map_seq f g n :
  dot (map f (seq 0 n)) (map g (seq 0 n)) = sumf n (λ p, f p * g p).
Proof. apply dot_map. Qed.

Lemma get_transpose a i j :
  (i < ncols a)%nat → (j < nrows a)%nat → get (transpose a) i j = get a j i.
Proof. intros. unfold transpose. rewrite get_mk by done. reflexivity. Qed.

Lemma shaped_transpose r c a : shaped r c a → shaped c r (transpose a).
Proof. intros (<- & <- & _). apply shaped_mk. Qed.

Lemma matmul_shaped r k c a b :
  shaped r k a → shaped k c b →
  matmul a b = Some (mk r c (λ i j, sumf k (λ p, get a i p * get b p j))).
Proof.
  intros Ha Hb. unfold matmul.
  pose proof Ha as (Har & Hac & _). pose proof Hb as (Hbr & Hbc & _).
  rewrite Har, Hac, Hbr, Hbc, Nat.eqb_refl. f_equal.
  apply mk_ext. intros i j Hi Hj.
  rewrite (row_get r k a i Ha Hi), (col_get k c b j Hb).
  apply dot_map_seq.
Qed.

Lemma broadcast_dim_same n : broadcast_dim n n = Some n.
Proof. unfold broadcast_dim. rewrite Nat.eqb_refl. reflexivity. Qed.

Lemma bget_get a i j :
  (i < nrows a)%nat → (j < ncols a)%nat → bget a i j = get a i j.
Proof.
  intros Hi Hj. unfold bget.
  destruct (Nat.eqb_spec (nrows a) 1), (Nat.eqb_spec (ncols a) 1);
    repeat f_equal; lia.
Qed.

Lemma elementwise_shaped op r c a b :
  shaped r c a → shaped r c b →
  elementwise op a b = Some (mk r c (λ i j, op (get a i j) (get b i j))).
Proof.
  intros (Har & Hac & _) (Hbr & Hbc & _). unfold elementwise.
  rewrite Har, Hac, Hbr, Hbc, !broadcast_dim_same. f_equal.
  apply mk_ext. intros i j Hi Hj. rewrite !bget_get by lia. reflexivity.
Qed.

Lemma isub_shaped r c a b :
  shaped r c a → shaped r c b →
  isub a b = Some (mk r c (λ i j, get a i j - get b i j)).
Proof.
  intros (Har & Hac & _) (Hbr & Hbc & _). unfold isub.
  rewrite Har, Hac, Hbr, Hbc, !broadcast_dim_same, !Nat.eqb_refl. simpl. f_equal.
  apply mk_ext. intros i j Hi Hj. rewrite !bget_get by lia. reflexivity.
Qed.

Lemma shaped_scale r c s a : shaped r c a → shaped r c (scale s a).
Proof. intros (<- & <- & _). apply shaped_mk. Qed.

Lemma get_scale s a i j :
  (i < nrows a)%nat → (j < ncols a)%nat → get (scale s a) i j = s * get a i j.
Proof. intros. unfold scale. rewrite get_mk by done. reflexivity. Qed.

Lemma fold_left_add_map {A} (f : A → float) l : ∀ acc,
  fold_left PrimFloat.add (map f l) acc = fold_left (λ a x, a + f x) l acc.
Proof. induction l as [|x l IH]; intros acc; [reflexivity|]. simpl. apply IH. Qed.

Lemma concat_rows_mk r c f :
  concat (rows (mk r c f)) = map (λ ij, f ij.1 ij.2) (list_prod (seq 0 r) (seq 0 c)).
Proof.
  simpl. induction (seq 0 r) as [|i l IH]; [reflexivity|].
  simpl. rewrite IH, map_app, map_map. reflexivity.
Qed.

Lemma asum_mk r c f : asum (mk r c f) = sum2 r c f.
Proof. unfold asum, sum2. rewrite concat_rows_mk. apply fold_left_add_map. Qed.

(** ** The code's arrays are the specification's tables *)

Lemma shaped_residual Θ X Y u i k :
  shaped u k Θ → shaped i k X → shaped u i (residual Θ X Y).
Proof. intros (<- & _) (<- & _). apply shaped_mk. Qed.

Lemma shaped_delta_x R Θ X i k beta :
  shaped i k X → shaped i k (delta_x R Θ X beta).
Proof. intros (<- & <- & _). apply shaped_mk. Qed.

Lemma shaped_delta_theta R Θ X u k beta :
  shaped u k Θ → shaped u k (delta_theta R Θ X beta).
Proof. intros (<- & <- & _). apply shaped_mk. Qed.

Lemma shaped_descend r c A D alpha : shaped r c A → shaped r c (descend A D alpha).
Proof. intros (<- & <- & _). apply shaped_mk. Qed.

Lemma shaped_next_x Θ X Y i k alpha beta :
  shaped i k X → shaped i k (next_x Θ X Y alpha beta).
Proof. apply shaped_descend. Qed.

Lemma shaped_next_theta Θ X Y u k alpha beta :
  shaped u k Θ → shaped u k (next_theta Θ X Y alpha beta).
Proof. apply shaped_descend. Qed.

(** [a -= alpha * d] *)
Lemma isub_descend r c A D alpha :
  shaped r c A → shaped r c D →
  isub A (scale alpha D) = Some (descend A D alpha).
Proof.
  intros HA HD. rewrite (isub_shaped r c) by (done || by apply shaped_scale).
  f_equal. unfold descend. destruct HA as (-> & -> & _), HD as (HDr & HDc & _).
  apply mk_ext. intros a b Ha Hb. rewrite get_scale by lia. reflexivity.
Qed.

Section Compatible.
Context (Θ X Y : ndarray) (u i k : nat).
Hypothesis HΘ : shaped u k Θ.
Hypothesis HX : shaped i k X.
Hypothesis HY : shaped u i Y.

(** [theta @ x.T] *)
Lemma matmul_prediction :
  matmul Θ (transpose X) = Some (mk u i (prediction Θ X)).
Proof using HΘ HX HY.
  rewrite (matmul_shaped u k i) by (done || by apply shaped_transpose).
  f_equal. apply mk_ext. intros a b Ha Hb. unfold prediction.
  destruct HΘ as (_ & -> & _). apply sumf_ext. intros p Hp.
  destruct HX as (HXr & HXc & _).
  rewrite get_transpose by lia. reflexivity.
Qed.

(** [tmp = theta @ x.T - y; tmp[np.isnan(tmp)] = 0] *)
Lemma sub_mask_residual :
  ∃ tmp, sub (mk u i (prediction Θ X)) Y = Some tmp
         ∧ mask_nan tmp = residual Θ X Y.
Proof using HΘ HX HY.
  eexists. split.
  - unfold sub. apply elementwise_shaped; [apply shaped_mk|done].
  - unfold mask_nan, residual. simpl.
    destruct HΘ as (-> & _), HX as (-> & _).
    apply mk_ext. intros a b Ha Hb. rewrite !get_mk by done. reflexivity.
Qed.

(** [dx = tmp.T @ theta + beta * x] *)
Lemma add_delta_x beta :
  ∃ g, matmul (transpose (residual Θ X Y)) Θ = Some g
       ∧ add g (scale beta X) = Some (delta_x (residual Θ X Y) Θ X beta).
Proof using HΘ HX HY.
  pose proof (shaped_residual Θ X Y u i k HΘ HX) as HR.
  eexists. split.
  - apply (matmul_shaped i u k); [by apply shaped_transpose|done].
  - unfold add. rewrite (elementwise_shaped _ i k);
      [|apply shaped_mk|by apply shaped_scale].
    f_equal. unfold delta_x.
    destruct HΘ as (HΘr & HΘc & _), HX as (HXr & HXc & _), HR as (HRr & HRc & _).
    rewrite HΘr, HXr, HXc.
    apply mk_ext. intros b c Hb Hc. rewrite get_mk, get_scale by lia.
    f_equal. apply sumf_ext. intros a Ha. rewrite get_transpose by lia.
    reflexivity.
Qed.

(** [dtheta = tmp @ x + beta * theta] *)
Lemma add_delta_theta beta :
  ∃ g, matmul (residual Θ X Y) X = Some g
       ∧ add g (scale beta Θ) = Some (delta_theta (residual Θ X Y) Θ X beta).
Proof using HΘ HX HY.
  pose proof (shaped_residual Θ X Y u i k HΘ HX) as HR.
  eexists. split.
  - apply (matmul_shaped u i k); done.
  - unfold add. rewrite (elementwise_shaped _ u k);
      [|apply shaped_mk|by apply shaped_scale].
    f_equal. unfold delta_theta.
    destruct HΘ as (HΘr & HΘc & _), HX as (HXr & HXc & _).
    rewrite HΘr, HXr, HΘc.
    apply mk_ext. intros a c Ha Hc. rewrite get_mk, get_scale by lia.
    reflexivity.
Qed.
End Compatible.

(** ** Running the monad *)

Lemma bind_load {A} l a (k : ndarray → M A) σ :
  σ !! l = Some a → (let* v := load l in k v) σ = k a σ.
Proof. intros H. unfold bind, load. rewrite H. reflexivity. Qed.

Lemma bind_np_Some {A B} (a : A) (k : A → M B) σ :
  (let* v := np (Some a) in k v) σ = k a σ.
Proof. reflexivity. Qed.

Lemma bind_store {A} l a (k : M A) σ :
  (store l a ;; k) σ = k (<[l := a]> σ).
Proof. reflexivity. Qed.

Lemma bind_assoc {A B C} (m : M A) (f : A → M B) (g : B → M C) σ :
  (let* b := (let* a := m in f a) in g b) σ = (let* a := m in let* b := f a in g b) σ.
Proof. unfold bind. destruct (m σ) as [[a|e] σ']; reflexivity. Qed.

Lemma for_range_add m n body σ :
  for_range (m + n) body σ = (for_range m body ;; for_range n body) σ.
Proof.
  revert σ. induction m as [|m IH]; intros σ; [reflexivity|].
  simpl. rewrite bind_assoc. unfold bind at 1 2.
  destruct (body σ) as [[[]|e] σ']; [apply IH|reflexivity].
Qed.

(** When [theta] and [x] are one and the same object, [theta -= ...] reads
    what [x -= ...] has just written: from [[1]], the first update leaves
    [[0.5]] and the second [[0]]. *)
Example gradient_step_aliased :
  gradient_step 0 0 2 0.5 0 (<[0%nat := tiny_theta]> (<[2%nat := tiny_y]> ∅))
  = (Ok tt, <[0%nat := Ndarray 1 1 [ [0] ] ]> (<[2%nat := tiny_y]> ∅)).
Proof. vm_compute. reflexivity. Qed.

(** ** One step on compatible shapes *)

Section Step.
Context (theta x y : loc) (Θ X Y : ndarray) (u i k : nat).
Hypothesis HΘ : shaped u k Θ.
Hypothesis HX : shaped i k X.
Hypothesis HY : shaped u i Y.
Hypothesis Hθx : theta ≠ x.

Lemma gradient_step_compatible alpha beta σ :
  σ !! theta = Some Θ → σ !! x = Some X → σ !! y = Some Y →
  gradient_step theta x y alpha beta σ
  = (Ok tt, <[theta := next_theta Θ X Y alpha beta]>
              (<[x := next_x Θ X Y alpha beta]> σ)).
Proof using HΘ HX HY Hθx.
  intros Lθ Lx Ly. unfold gradient_step.
  rewrite (bind_load theta Θ), (bind_load x X) by done.
  rewrite (matmul_prediction Θ X Y u i k) by done. rewrite bind_np_Some.
  rewrite (bind_load y Y) by done.
  destruct (sub_mask_residual Θ X Y u i k) as (tmp & -> & Hm); try done.
  rewrite bind_np_Some. cbv zeta. rewrite Hm.
  rewrite (bind_load theta Θ) by done.
  destruct (add_delta_x Θ X Y u i k HΘ HX HY beta) as (g & -> & Hdx).
  rewrite bind_np_Some, (bind_load x X) by done.
  rewrite Hdx, bind_np_Some, (bind_load x X) by done.
  destruct (add_delta_theta Θ X Y u i k HΘ HX HY beta) as (g' & -> & Hdθ).
  rewrite bind_np_Some, (bind_load theta Θ) by done.
  rewrite Hdθ, bind_np_Some, (bind_load x X) by done.
  rewrite (isub_descend i k) by (done || by apply shaped_delta_x).
  rewrite bind_np_Some, bind_store.
  rewrite (bind_load theta Θ) by (by rewrite lookup_insert_ne).
  rewrite (isub_descend u k) by (done || by apply shaped_delta_theta).
  reflexivity.
Qed.
End Step.

(** ** Shapes: when numpy raises *)

Lemma broadcast_dim_Some m n r :
  broadcast_dim m n = Some r ↔
  (m = n ∧ r = m) ∨ (m ≠ n ∧ m = 1 ∧ r = n)%nat ∨ (m ≠ n ∧ m ≠ 1 ∧ n = 1 ∧ r = m)%nat.
Proof.
  unfold broadcast_dim.
  destruct (Nat.eqb_spec m n), (Nat.eqb_spec m 1), (Nat.eqb_spec n 1);
    split; intros H; try (injection H as <-); try discriminate H;
    try (f_equal; lia); lia.
Qed.

Lemma broadcast_dim_None m n :
  broadcast_dim m n = None ↔ (m ≠ n ∧ m ≠ 1 ∧ n ≠ 1)%nat.
Proof.
  unfold broadcast_dim.
  destruct (Nat.eqb_spec m n), (Nat.eqb_spec m 1), (Nat.eqb_spec n 1);
    split; intros H; try discriminate H; try reflexivity; lia.
Qed.

Lemma broadcast_dim_l m n : (n = m ∨ n = 1)%nat → broadcast_dim m n = Some m.
Proof. intros H. apply broadcast_dim_Some. lia. Qed.

Lemma step_shapes_ok_true Θ X Y :
  step_shapes_ok Θ X Y = true ↔
  ncols Θ = ncols X ∧ (nrows Y = nrows Θ ∨ nrows Y = 1)%nat
  ∧ (ncols Y = nrows X ∨ ncols Y = 1)%nat.
Proof.
  unfold step_shapes_ok.
  rewrite !andb_true_iff, !orb_true_iff, !Nat.eqb_eq. tauto.
Qed.

(** On shapes that fit, a pass through the loop raises nothing and leaves
    the shapes of [theta] and [x] as they were. *)
Lemma gradient_step_shapes_ok theta x y alpha beta σ Θ X Y :
  σ !! theta = Some Θ → σ !! x = Some X → σ !! y = Some Y → theta ≠ x →
  step_shapes_ok Θ X Y = true →
  ∃ Θ' X',
    gradient_step theta x y alpha beta σ
    = (Ok tt, <[theta := Θ']> (<[x := X']> σ))
    ∧ nrows Θ' = nrows Θ ∧ ncols Θ' = ncols Θ
    ∧ nrows X' = nrows X ∧ ncols X' = ncols X.
Proof.
  intros Lθ Lx Ly Hne (Hk & Hr & Hc)%step_shapes_ok_true.
  unfold gradient_step.
  rewrite (bind_load theta Θ), (bind_load x X) by done.
  unfold matmul at 1. simpl nrows. rewrite Hk, Nat.eqb_refl, bind_np_Some.
  rewrite (bind_load y Y) by done.
  unfold sub, elementwise at 1. simpl nrows. simpl ncols.
  rewrite (broadcast_dim_l _ _ Hr), (broadcast_dim_l _ _ Hc), bind_np_Some.
  cbv zeta. rewrite (bind_load theta Θ) by done.
  unfold matmul at 1. simpl nrows. simpl ncols. rewrite Nat.eqb_refl, bind_np_Some.
  rewrite (bind_load x X) by done.
  unfold add, elementwise at 1. simpl nrows. simpl ncols.
  rewrite Hk, !broadcast_dim_same. cbv beta iota. rewrite bind_np_Some.
  rewrite (bind_load x X) by done.
  unfold matmul at 1. simpl nrows. simpl ncols. rewrite Nat.eqb_refl, bind_np_Some.
  rewrite (bind_load theta Θ) by done.
  unfold elementwise at 1. simpl nrows. simpl ncols.
  rewrite ?Hk, !broadcast_dim_same. cbv beta iota. rewrite bind_np_Some.
  rewrite (bind_load x X) by done.
  unfold isub at 1. simpl nrows. simpl ncols.
  rewrite ?Hk, !broadcast_dim_same. cbv beta iota.
  rewrite !Nat.eqb_refl. change (true && true) with true.
  cbv beta iota. rewrite bind_np_Some, bind_store.
  rewrite (bind_load theta Θ) by (by rewrite lookup_insert_ne).
  unfold isub at 1. simpl nrows. simpl ncols.
  rewrite ?Hk, !broadcast_dim_same. cbv beta iota.
  rewrite !Nat.eqb_refl. change (true && true) with true.
  cbv beta iota. rewrite bind_np_Some.
  eexists _, _. split; [reflexivity|]. done.
Qed.

(** On every other shape it raises [ValueError] before any array is
    written. *)
Lemma gradient_step_shapes_bad theta x y alpha beta σ Θ X Y :
  σ !! theta = Some Θ → σ !! x = Some X → σ !! y = Some Y →
  step_shapes_ok Θ X Y = false →
  gradient_step theta x y alpha beta σ = (Raise ValueError, σ).
Proof.
  intros Lθ Lx Ly Hbad.
  assert (Hno : ¬ (ncols Θ = ncols X ∧ (nrows Y = nrows Θ ∨ nrows Y = 1)%nat
                   ∧ (ncols Y = nrows X ∨ ncols Y = 1)%nat)).
  { rewrite <- step_shapes_ok_true, Hbad. done. }
  clear Hbad. unfold gradient_step.
  rewrite (bind_load theta Θ), (bind_load x X) by done.
  unfold matmul at 1. simpl nrows.
  destruct (Nat.eqb_spec (ncols Θ) (ncols X)) as [Hk|Hk]; [|reflexivity].
  rewrite bind_np_Some, (bind_load y Y) by done.
  unfold sub, elementwise at 1. simpl nrows. simpl ncols.
  destruct (broadcast_dim (nrows Θ) (nrows Y)) as [U|] eqn:EU; [|reflexivity].
  destruct (broadcast_dim (nrows X) (ncols Y)) as [I|] eqn:EI; [|reflexivity].
  rewrite bind_np_Some. cbv zeta. rewrite (bind_load theta Θ) by done.
  unfold matmul at 1. simpl nrows. simpl ncols.
  destruct (Nat.eqb_spec U (nrows Θ)) as [HU|HU]; [|reflexivity].
  rewrite bind_np_Some, (bind_load x X) by done.
  unfold add, elementwise at 1. simpl nrows. simpl ncols.
  destruct (broadcast_dim I (nrows X)) as [I'|]; [|reflexivity].
  rewrite Hk, broadcast_dim_same. cbv beta iota.
  rewrite bind_np_Some, (bind_load x X) by done.
  unfold matmul at 1. simpl nrows. simpl ncols.
  destruct (Nat.eqb_spec I (nrows X)) as [HI|HI]; [|reflexivity].
  exfalso. apply Hno. subst U I.
  apply broadcast_dim_Some in EU, EI. lia.
Qed.

(** ** What the functions write *)

Lemma writes_only_ret {A} L (a : A) : writes_only L (ret a).
Proof. done. Qed.

Lemma writes_only_np {A} L (o : option A) : writes_only L (np o).
Proof. destruct o; done. Qed.

Lemma writes_only_load L l : writes_only L (load l).
Proof. intros σ l' _. unfold load. destruct (σ !! l); done. Qed.

Lemma writes_only_store L l a : l ∈ L → writes_only L (store l a).
Proof.
  intros Hl σ l' Hl'. simpl. apply lookup_insert_ne. intros ->. done.
Qed.

Lemma writes_only_bind {A B} L (m : M A) (k : A → M B) :
  writes_only L m → (∀ a, writes_only L (k a)) → writes_only L (let* a := m in k a).
Proof.
  intros Hm Hk σ l Hl. unfold bind. specialize (Hm σ l Hl).
  destruct (m σ) as [[a|e] σ']; simpl in *; [|done].
  rewrite (Hk a σ' l Hl). done.
Qed.

Lemma writes_only_for_range L n body :
  writes_only L body → writes_only L (for_range n body).
Proof.
  intros Hb. induction n as [|n IH]; simpl.
  - apply writes_only_ret.
  - apply writes_only_bind; done.
Qed.

Ltac writes_only :=
  repeat first
    [ apply writes_only_ret | apply writes_only_np | apply writes_only_load
    | apply writes_only_store; set_solver
    | apply writes_only_for_range
    | apply writes_only_bind; [|intros ?] ].

Lemma gradient_step_writes theta x y alpha beta :
  writes_only [x; theta] (gradient_step theta x y alpha beta).
Proof. unfold gradient_step. writes_only. Qed.

Lemma gradient_descent_writes theta x y max_iter alpha beta :
  writes_only [x; theta] (gradient_descent theta x y max_iter alpha beta).
Proof.
  unfold gradient_descent.
  apply writes_only_bind; [|intros; apply writes_only_ret].
  apply writes_only_for_range, gradient_step_writes.
Qed.

Lemma reads_only_bind {A B} (m : M A) (k : A → M B) :
  reads_only m → (∀ a, reads_only (k a)) → reads_only (let* a := m in k a).
Proof.
  intros Hm Hk σ. unfold bind. specialize (Hm σ).
  destruct (m σ) as [[a|e] σ']; simpl in *; [|done].
  rewrite (Hk a σ'). done.
Qed.

Lemma reads_only_load l : reads_only (load l).
Proof. intros σ. unfold load. destruct (σ !! l); done. Qed.

Lemma reads_only_np {A} (o : option A) : reads_only (np o).
Proof. destruct o; done. Qed.

(** [cost] writes nothing at all: whatever it does, the heap is the same. *)
Lemma cost_heap theta x y : reads_only (cost theta x y).
Proof.
  unfold cost.
  repeat first [ apply reads_only_load | apply reads_only_np
               | apply reads_only_bind; [|intros ?] ].
  done.
Qed.

(** What [cost] returns is a function of the three arrays it is given. *)
Lemma cost_depends_on_inputs theta x y σ1 σ2 :
  σ1 !! theta = σ2 !! theta → σ1 !! x = σ2 !! x → σ1 !! y = σ2 !! y →
  (cost theta x y σ1).1 = (cost theta x y σ2).1.
Proof.
  intros Hθ Hx Hy. unfold cost, bind, load. rewrite Hθ.
  destruct (σ2 !! theta) as [Θ|]; [|reflexivity]. rewrite Hx.
  destruct (σ2 !! x) as [X|]; [|reflexivity].
  destruct (matmul Θ (transpose X)) as [p|]; [|reflexivity]. simpl. rewrite Hy.
  destruct (σ2 !! y) as [Y|]; [|reflexivity].
  destruct (sub p Y) as [tmp|]; reflexivity.
Qed.

(** ** The loop *)

Section Loop.
Context (theta x y : loc) (Y : ndarray) (u i k : nat) (alpha beta : float).
Hypothesis HY : shaped u i Y.
Hypothesis Hθx : theta ≠ x.
Hypothesis Hyθ : y ≠ theta.
Hypothesis Hyx : y ≠ x.

Lemma shaped_descent n : ∀ Θ X,
  shaped u k Θ → shaped i k X →
  shaped u k (descent n Θ X Y alpha beta).1
  ∧ shaped i k (descent n Θ X Y alpha beta).2.
Proof using Type.
  induction n as [|n IH]; intros Θ X HΘ HX; [done|]. simpl.
  apply IH; [by apply shaped_next_theta|by apply shaped_next_x].
Qed.

Lemma for_range_descent n : ∀ σ Θ X,
  σ !! theta = Some Θ → σ !! x = Some X → σ !! y = Some Y →
  shaped u k Θ → shaped i k X →
  for_range n (gradient_step theta x y alpha beta) σ
  = (Ok tt, <[theta := (descent n Θ X Y alpha beta).1]>
              (<[x := (descent n Θ X Y alpha beta).2]> σ)).
Proof using HY Hθx Hyθ Hyx.
  induction n as [|n IH]; intros σ Θ X Lθ Lx Ly HΘ HX.
  - simpl. unfold ret. f_equal.
    rewrite (insert_id σ x X) by done. rewrite insert_id by done. done.
  - simpl. unfold bind at 1.
    rewrite (gradient_step_compatible theta x y Θ X Y u i k) by done.
    rewrite (IH _ (next_theta Θ X Y alpha beta) (next_x Θ X Y alpha beta)).
    + f_equal.
      rewrite (insert_insert_ne _ x theta) by done.
      rewrite !insert_insert_eq. done.
    + apply lookup_insert_eq.
    + rewrite lookup_insert_ne by done. apply lookup_insert_eq.
    + rewrite !lookup_insert_ne by done. done.
    + by apply shaped_next_theta.
    + by apply shaped_next_x.
Qed.

Lemma gradient_descent_descent max_iter σ Θ X :
  σ !! theta = Some Θ → σ !! x = Some X → σ !! y = Some Y →
  shaped u k Θ → shaped i k X →
  gradient_descent theta x y max_iter alpha beta σ
  = (Ok (theta, x),
     <[theta := (descent (Z.to_nat max_iter) Θ X Y alpha beta).1]>
       (<[x := (descent (Z.to_nat max_iter) Θ X Y alpha beta).2]> σ)).
Proof using HY Hθx Hyθ Hyx.
  intros. unfold gradient_descent, bind.
  rewrite (for_range_descent _ σ Θ X) by done. reflexivity.
Qed.
End Loop.

(** The cost on compatible shapes. *)
Lemma cost_compatible theta x y σ Θ X Y u i k :
  σ !! theta = Some Θ → σ !! x = Some X → σ !! y = Some Y →
  shaped u k Θ → shaped i k X → shaped u i Y →
  cost theta x y σ = (Ok (half_sum_squares (residual Θ X Y)), σ).
Proof.
  intros Lθ Lx Ly HΘ HX HY. unfold cost.
  rewrite (bind_load theta Θ), (bind_load x X) by done.
  rewrite (matmul_prediction Θ X Y u i k) by done.
  rewrite bind_np_Some, (bind_load y Y) by done.
  destruct (sub_mask_residual Θ X Y u i k) as (tmp & -> & Hm); try done.
  rewrite bind_np_Some. cbv zeta. rewrite Hm. unfold ret. do 2 f_equal.
  unfold square, half_sum_squares. rewrite asum_mk. reflexivity.
Qed.

(** ** The loop on arbitrary shapes *)

Lemma step_shapes_ok_shapes Θ X Θ' X' Y :
  nrows Θ' = nrows Θ → ncols Θ' = ncols Θ →
  nrows X' = nrows X → ncols X' = ncols X →
  step_shapes_ok Θ' X' Y = step_shapes_ok Θ X Y.
Proof. intros. unfold step_shapes_ok. congruence. Qed.

Lemma for_range_shapes_ok theta x y alpha beta Y n : ∀ σ Θ X,
  σ !! theta = Some Θ → σ !! x = Some X → σ !! y = Some Y →
  theta ≠ x → y ≠ theta → y ≠ x →
  step_shapes_ok Θ X Y = true →
  ∃ Θ' X',
    for_range n (gradient_step theta x y alpha beta) σ
    = (Ok tt, <[theta := Θ']> (<[x := X']> σ))
    ∧ nrows Θ' = nrows Θ ∧ ncols Θ' = ncols Θ
    ∧ nrows X' = nrows X ∧ ncols X' = ncols X.
Proof.
  induction n as [|n IH]; intros σ Θ X Lθ Lx Ly Hθx Hyθ Hyx Hok.
  - exists Θ, X. split; [|done]. simpl. unfold ret. f_equal.
    rewrite (insert_id σ x X) by done. rewrite insert_id by done. done.
  - destruct (gradient_step_shapes_ok theta x y alpha beta σ Θ X Y)
      as (Θ1 & X1 & E1 & ? & ? & ? & ?); try done.
    destruct (IH (<[theta := Θ1]> (<[x := X1]> σ)) Θ1 X1)
      as (Θ' & X' & E' & ? & ? & ? & ?); try done.
    + apply lookup_insert_eq.
    + rewrite lookup_insert_ne by done. apply lookup_insert_eq.
    + rewrite !lookup_insert_ne by done. done.
    + rewrite (step_shapes_ok_shapes Θ X) by done. done.
    + exists Θ', X'. split; [|repeat split; congruence].
      simpl. unfold bind at 1. rewrite E1, E'. f_equal.
      rewrite (insert_insert_ne _ x theta) by done.
      rewrite !insert_insert_eq. done.
Qed.

Lemma for_range_shapes_bad theta x y alpha beta Y n σ Θ X :
  σ !! theta = Some Θ → σ !! x = Some X → σ !! y = Some Y →
  step_shapes_ok Θ X Y = false →
  for_range (S n) (gradient_step theta x y alpha beta) σ = (Raise ValueError, σ).
Proof.
  intros Lθ Lx Ly Hbad. simpl. unfold bind at 1.
  rewrite (gradient_step_shapes_bad theta x y alpha beta σ Θ X Y) by done.
  reflexivity.
Qed.

Lemma cost_shapes_ok_true Θ X Y :
  cost_shapes_ok Θ X Y = true ↔
  ncols Θ = ncols X
  ∧ (nrows Θ = nrows Y ∨ nrows Θ = 1 ∨ nrows Y = 1)%nat
  ∧ (nrows X = ncols Y ∨ nrows X = 1 ∨ ncols Y = 1)%nat.
Proof.
  unfold cost_shapes_ok.
  rewrite !andb_true_iff, !bool_decide_eq_true, Nat.eqb_eq.
  assert (Hb : ∀ m n, is_Some (broadcast_dim m n) ↔ (m = n ∨ m = 1 ∨ n = 1)%nat).
  { intros m n. unfold is_Some. split.
    - intros [r Hr%broadcast_dim_Some]. lia.
    - intros H. destruct (broadcast_dim m n) eqn:E; [eauto|].
      apply broadcast_dim_None in E. lia. }
  rewrite !Hb. tauto.
Qed.

(** [cost] raises on the shapes numpy cannot multiply or broadcast, and on
    no other. *)
Lemma cost_shapes theta x y σ Θ X Y :
  σ !! theta = Some Θ → σ !! x = Some X → σ !! y = Some Y →
  if cost_shapes_ok Θ X Y
  then ∃ v, cost theta x y σ = (Ok v, σ)
  else cost theta x y σ = (Raise ValueError, σ).
Proof.
  intros Lθ Lx Ly. unfold cost.
  rewrite (bind_load theta Θ), (bind_load x X) by done.
  unfold matmul, cost_shapes_ok. simpl nrows.
  destruct (Nat.eqb_spec (ncols Θ) (ncols X)) as [Hk|Hk]; [|reflexivity].
  rewrite bind_np_Some, (bind_load y Y) by done.
  unfold sub, elementwise. simpl nrows. simpl ncols.
  destruct (broadcast_dim (nrows Θ) (nrows Y)) as [U|] eqn:EU;
    [rewrite bool_decide_eq_true_2 by eauto
    |rewrite bool_decide_eq_false_2 by (by intros [? ?]); reflexivity].
  destruct (broadcast_dim (nrows X) (ncols Y)) as [I|] eqn:EI;
    [rewrite bool_decide_eq_true_2 by eauto
    |rewrite bool_decide_eq_false_2 by (by intros [? ?]); reflexivity].
  simpl. eauto.
Qed.

Ltac solve_shaped := repeat split; try reflexivity; repeat constructor.

Lemma get_descend A D alpha a b :
  (a < nrows A)%nat → (b < ncols A)%nat →
  get (descend A D alpha) a b = get A a b - alpha * get D a b.
Proof. intros. unfold descend. rewrite get_mk by done. reflexivity. Qed.

(** ** Entries of arrays, and sums that stay non-negative *)

Lemma all_entries_get P r c a i j :
  shaped r c a → all_entries P a = true → (i < r)%nat → (j < c)%nat →
  P (get a i j) = true.
Proof.
  intros Ha Hall Hi Hj. pose proof Ha as (Hr & Hc & Hl & _).
  unfold all_entries in Hall. rewrite forallb_forall in Hall.
  assert (Hrow : forallb P (row a i) = true).
  { apply Hall. unfold row. apply nth_In. lia. }
  rewrite forallb_forall in Hrow. apply Hrow. unfold get.
  apply nth_In. rewrite (shaped_row r c) by done. done.
Qed.

Lemma fold_left_nonneg {A} (f : A → float) l : ∀ acc,
  nonneg acc → (∀ a, In a l → nonneg (f a)) →
  nonneg (fold_left (λ s a, s + f a) l acc).
Proof.
  induction l as [|a l IH]; intros acc Hacc Hf; [done|]. simpl.
  apply IH.
  - apply nonneg_add; [done|]. apply Hf. by left.
  - intros b Hb. apply Hf. by right.
Qed.

Lemma sum2_nonneg r c f :
  (∀ a b, (a < r)%nat → (b < c)%nat → nonneg (f a b)) → nonneg (sum2 r c f).
Proof.
  intros H. unfold sum2. apply fold_left_nonneg; [apply nonneg_0|].
  intros [a b] [[_ Ha]%List.in_seq [_ Hb]%List.in_seq]%in_prod_iff.
  apply H; simpl; lia.
Qed.

Lemma residual_not_nan Θ X Y a b :
  (a < nrows Θ)%nat → (b < nrows X)%nat →
  is_nan (get (residual Θ X Y) a b) = false.
Proof.
  intros Ha Hb. unfold residual. rewrite get_mk by done. cbv zeta.
  destruct (is_nan (prediction Θ X a b - get Y a b)) eqn:E; done.
Qed.

Lemma half_sum_squares_nonneg Θ X Y :
  nonneg (half_sum_squares (residual Θ X Y)).
Proof.
  unfold half_sum_squares. apply nonneg_half_mul, sum2_nonneg.
  intros a b Ha Hb. apply nonneg_mul_self, residual_not_nan; done.
Qed.

(** Testing the difference or testing the rating: the same mask whenever the
    prediction is a number and the rating is a real number or missing. *)
Lemma residual_entry_masked_by_y Θ X Y a b :
  is_nan (prediction Θ X a b) = false → rating (get Y a b) = true →
  (let r := prediction Θ X a b - get Y a b in if is_nan r then 0 else r)
  = (if is_nan (get Y a b) then 0 else prediction Θ X a b - get Y a b).
Proof.
  intros Hp Hy. cbv zeta. unfold rating in Hy.
  destruct (is_nan (get Y a b)) eqn:Ey.
  - rewrite sub_nan_r by done. reflexivity.
  - rewrite orb_false_r in Hy. rewrite sub_not_nan by done. reflexivity.
Qed.

Lemma residual_masked_by_y_eq Θ X Y u i k :
  shaped u k Θ → shaped i k X → shaped u i Y →
  (∀ a b, (a < u)%nat → (b < i)%nat → is_nan (prediction Θ X a b) = false) →
  all_entries rating Y = true →
  residual Θ X Y = residual_masked_by_y Θ X Y.
Proof.
  intros (HΘr & _) (HXr & _) HY Hp Hy. unfold residual, residual_masked_by_y.
  rewrite HΘr, HXr. apply mk_ext. intros a b Ha Hb.
  apply residual_entry_masked_by_y; [by apply Hp|].
  by apply (all_entries_get rating u i).
Qed.

(** ** A zero learning rate *)

Lemma descend_zero_rate r c A D :
  shaped r c A → shaped r c D →
  all_entries is_finite D = true →
  all_entries (λ f, negb (is_neg_zero f)) A = true →
  descend A D 0 = A.
Proof.
  intros HA HD HfD HzA. unfold descend.
  pose proof HA as (HAr & HAc & _). rewrite HAr, HAc.
  transitivity (mk r c (get A)); [|by apply mk_get].
  apply mk_ext. intros a b Ha Hb. apply sub_a_zero.
  - apply is_neg_zero_SF, negb_true_iff.
    by apply (all_entries_get (λ f, negb (is_neg_zero f)) r c).
  - apply zero_mul_fin. by apply (all_entries_get is_finite r c).
Qed.

(** ** A user none of whose ratings is known *)

Lemma fold_left_not_neg_zero {A} (f : A → float) l : ∀ acc,
  not_neg_zero acc → not_neg_zero (fold_left (λ s a, s + f a) l acc).
Proof.
  induction l as [|a l IH]; intros acc Hacc; [done|]. simpl.
  apply IH, add_not_neg_zero, Hacc.
Qed.

Lemma fold_left_zeros {A} (f : A → float) l : ∀ acc,
  not_neg_zero acc → (∀ a, In a l → is_a_zero (f a)) →
  fold_left (λ s a, s + f a) l acc = acc.
Proof.
  induction l as [|a l IH]; intros acc Hacc Hz; [done|]. simpl.
  rewrite add_a_zero by (done || apply Hz; by left).
  apply IH; [done|]. intros b Hb. apply Hz. by right.
Qed.

(** A sum of zeros is the positive zero. *)
Lemma sumf_zeros n f : (∀ a, (a < n)%nat → is_a_zero (f a)) → sumf n f = 0.
Proof.
  intros H. unfold sumf. apply fold_left_zeros; [apply not_neg_zero_0|].
  intros a [_ Ha]%List.in_seq. apply H. lia.
Qed.

(** A term that is a zero can be replaced by another zero. *)
Lemma sumf_agree_except n u0 f g :
  (u0 < n)%nat →
  (∀ a, (a < n)%nat → a ≠ u0 → f a = g a) →
  is_a_zero (f u0) → is_a_zero (g u0) →
  sumf n f = sumf n g.
Proof.
  intros Hu Hfg Hf Hg. unfold sumf.
  replace n with (u0 + S (n - S u0))%nat by lia.
  rewrite seq_app, !fold_left_app. simpl.
  assert (Hpre : fold_left (λ s a, s + f a) (seq 0 u0) 0
                 = fold_left (λ s a, s + g a) (seq 0 u0) 0).
  { apply fold_left_ext_in. intros s a [_ Ha]%List.in_seq.
    rewrite Hfg by lia. reflexivity. }
  rewrite <- Hpre.
  rewrite !add_a_zero
    by (done || apply fold_left_not_neg_zero, not_neg_zero_0).
  apply fold_left_ext_in. intros s a [Ha1 Ha2]%List.in_seq.
  rewrite Hfg by lia. reflexivity.
Qed.

Lemma forallb_row_get P r c a i j :
  shaped r c a → forallb P (row a i) = true → (i < r)%nat → (j < c)%nat →
  P (get a i j) = true.
Proof.
  intros Ha Hrow Hi Hj. rewrite forallb_forall in Hrow. apply Hrow.
  unfold get. apply nth_In. rewrite (shaped_row r c) by done. done.
Qed.

Lemma shaped_set_row r c a u0 v :
  shaped r c a → length v = c → shaped r c (set_row u0 v a).
Proof.
  intros (Hr & Hc & Hl & Hall) Hv. repeat split; simpl; try done.
  - rewrite length_insert. done.
  - apply Forall_insert; [done|]. congruence.
Qed.

Lemma row_set_row_ne a u0 v i : i ≠ u0 → row (set_row u0 v a) i = row a i.
Proof.
  intros Hne. unfold row, set_row. simpl.
  rewrite !nth_lookup, list_lookup_insert_ne by done. reflexivity.
Qed.

Lemma row_set_row_eq a u0 v :
  (u0 < length (rows a))%nat → row (set_row u0 v a) u0 = v.
Proof.
  intros Hlt. unfold row, set_row. simpl.
  rewrite nth_lookup, list_lookup_insert_eq by done. reflexivity.
Qed.

Lemma get_set_row_ne a u0 v i j : i ≠ u0 → get (set_row u0 v a) i j = get a i j.
Proof. intros. unfold get. rewrite row_set_row_ne by done. reflexivity. Qed.

Section MissingRow.
Context (Θ X Y : ndarray) (u i k u0 : nat).
Hypothesis HΘ : shaped u k Θ.
Hypothesis HX : shaped i k X.
Hypothesis HY : shaped u i Y.
Hypothesis Hu0 : (u0 < u)%nat.
Hypothesis Hmiss : forallb is_nan (row Y u0) = true.

(** The residual of that user is zero, whatever the parameters. *)
Lemma residual_missing_row b :
  (b < i)%nat → get (residual Θ X Y) u0 b = 0.
Proof using HΘ HX HY Hu0 Hmiss.
  intros Hb. destruct HΘ as (HΘr & _), HX as (HXr & _).
  unfold residual. rewrite get_mk by lia. cbv zeta.
  rewrite sub_nan_r; [reflexivity|].
  by apply (forallb_row_get is_nan u i).
Qed.

(** It does not depend on the parameters of that user. *)
Lemma residual_set_row v :
  residual (set_row u0 v Θ) X Y = residual Θ X Y.
Proof using HΘ HX HY Hu0 Hmiss.
  destruct HΘ as (HΘr & _), HX as (HXr & _).
  unfold residual. simpl nrows. apply mk_ext. intros a b Ha Hb. cbv zeta.
  destruct (decide (a = u0)) as [->|Hne].
  - rewrite !sub_nan_r by (apply (forallb_row_get is_nan u i); done || lia).
    reflexivity.
  - unfold prediction. simpl ncols.
    rewrite (sumf_ext _ _ (λ p, get Θ a p * get X b p)); [reflexivity|].
    intros p _. rewrite get_set_row_ne by done. reflexivity.
Qed.

(** The parameters of that user enter [ΔX] through products with a zero
    residual, and the sum does not see them. *)
Lemma delta_x_set_row v beta :
  length v = k → forallb is_finite v = true →
  forallb is_finite (row Θ u0) = true →
  delta_x (residual (set_row u0 v Θ) X Y) (set_row u0 v Θ) X beta
  = delta_x (residual Θ X Y) Θ X beta.
Proof using HΘ HX HY Hu0 Hmiss.
  intros Hv Hfv HfΘ. rewrite residual_set_row.
  pose proof HΘ as (HΘr & HΘc & HΘl & _). pose proof HX as (HXr & HXc & _).
  unfold delta_x. simpl nrows. rewrite HΘr, HXr, HXc.
  apply mk_ext. intros b c Hb Hc. f_equal.
  apply (sumf_agree_except u u0); [done| | |].
  - intros a Ha Hne. rewrite get_set_row_ne by done. reflexivity.
  - rewrite residual_missing_row by done. apply zero_mul_fin.
    unfold get. rewrite row_set_row_eq by lia.
    rewrite forallb_forall in Hfv. apply Hfv, nth_In. lia.
  - rewrite residual_missing_row by done. apply zero_mul_fin.
    by apply (forallb_row_get is_finite u k).
Qed.

(** [ΔΘ] of another user does not involve them at all. *)
Lemma delta_theta_set_row v beta a c :
  (a < u)%nat → (c < k)%nat → a ≠ u0 →
  get (delta_theta (residual (set_row u0 v Θ) X Y) (set_row u0 v Θ) X beta) a c
  = get (delta_theta (residual Θ X Y) Θ X beta) a c.
Proof using HΘ HX HY Hu0 Hmiss.
  intros Ha Hc Hne. rewrite residual_set_row.
  pose proof HΘ as (HΘr & HΘc & _).
  unfold delta_theta. simpl nrows. simpl ncols.
  rewrite !get_mk by lia. rewrite get_set_row_ne by done. reflexivity.
Qed.

(** [ΔΘ] of that user is zero when [beta = 0] and the entries are finite. *)
Lemma delta_theta_missing_row c :
  (c < k)%nat →
  all_entries is_finite X = true → forallb is_finite (row Θ u0) = true →
  get (delta_theta (residual Θ X Y) Θ X 0) u0 c = 0.
Proof using HΘ HX HY Hu0 Hmiss.
  intros Hc HfX HfΘ.
  pose proof HΘ as (HΘr & HΘc & _). pose proof HX as (HXr & HXc & _).
  unfold delta_theta. rewrite get_mk by lia.
  rewrite sumf_zeros.
  - apply add_a_zero; [apply not_neg_zero_0|]. apply zero_mul_fin.
    by apply (forallb_row_get is_finite u k).
  - intros b Hb. rewrite residual_missing_row by lia. apply zero_mul_fin.
    apply (all_entries_get is_finite i k); (done || lia).
Qed.
End MissingRow.

Lemma fold_left_add_zeros z : ∀ acc,
  not_neg_zero acc → Forall is_a_zero z → fold_left PrimFloat.add z acc = acc.
Proof.
  intros acc Hacc Hz. apply (fold_left_zeros (λ a, a)); [done|].
  intros a Ha. rewrite Forall_forall in Hz. apply Hz, list_elem_of_In, Ha.
Qed.

(** A row of zeros adds nothing to [a.sum()]. *)
Lemma asum_drop_zero_row a u0 :
  (∀ z, rows a !! u0 = Some z → Forall is_a_zero z) →
  asum a = asum (drop_row u0 a).
Proof.
  intros Hz. unfold asum, drop_row. simpl rows.
  rewrite delete_take_drop.
  destruct (rows a !! u0) as [z|] eqn:E.
  - rewrite <- (take_drop_middle _ _ _ E) at 1.
    rewrite !concat_app, !fold_left_app. simpl concat.
    rewrite fold_left_app. f_equal.
    apply fold_left_add_zeros; [|by apply Hz].
    apply (fold_left_not_neg_zero (λ a, a)), not_neg_zero_0.
  - apply lookup_ge_None in E.
    rewrite take_ge, drop_ge, app_nil_r by lia. reflexivity.
Qed.

Lemma rows_mk_lookup r c f a z :
  rows (mk r c f) !! a = Some z → (a < r)%nat ∧ z = map (λ j, f a j) (seq 0 c).
Proof.
  intros E. assert (Ha : (a < r)%nat).
  { apply lookup_lt_Some in E. simpl in E.
    rewrite length_map, length_seq in E. done. }
  split; [done|].
  apply (nth_lookup_Some _ _ []) in E. rewrite <- E.
  apply (row_mk r c f a Ha).
Qed.

(** ** One step at a time *)

Section Training.
Context (theta x y : loc) (Y : ndarray) (u i k : nat) (alpha beta : float).
Hypothesis HY : shaped u i Y.
Hypothesis Hθx : theta ≠ x.
Hypothesis Hyθ : y ≠ theta.
Hypothesis Hyx : y ≠ x.

(** The cost recorded at pass [j] is that of the matrices after [j + 1]
    steps, and the arrays end as [n] steps leave them. *)
Lemma training_loop_descent n : ∀ j costs σ Θ X,
  σ !! theta = Some Θ → σ !! x = Some X → σ !! y = Some Y →
  shaped u k Θ → shaped i k X →
  training_loop n j theta x y alpha beta costs σ
  = (Ok (costs ++
         map (λ p, ((j + Z.of_nat p)%Z,
                    half_sum_squares
                      (residual (descent (S p) Θ X Y alpha beta).1
                                (descent (S p) Θ X Y alpha beta).2 Y)))
             (seq 0 n)),
     <[theta := (descent n Θ X Y alpha beta).1]>
       (<[x := (descent n Θ X Y alpha beta).2]> σ)).
Proof using HY Hθx Hyθ Hyx.
  induction n as [|n IH]; intros j costs σ Θ X Lθ Lx Ly HΘ HX.
  - simpl. unfold ret. rewrite app_nil_r. f_equal.
    rewrite (insert_id σ x X) by done. rewrite insert_id by done. done.
  - cbn [training_loop]. unfold bind at 1.
    rewrite (gradient_descent_descent theta x y Y u i k alpha beta)
      with (max_iter := 1%Z) (Θ := Θ) (X := X) by done.
    change (Z.to_nat 1) with 1%nat. cbn [descent fst snd].
    set (Θ1 := next_theta Θ X Y alpha beta). set (X1 := next_x Θ X Y alpha beta).
    set (σ1 := <[theta := Θ1]> (<[x := X1]> σ)).
    assert (HΘ1 : shaped u k Θ1) by (by apply shaped_next_theta).
    assert (HX1 : shaped i k X1) by (by apply shaped_next_x).
    assert (Lθ1 : σ1 !! theta = Some Θ1) by apply lookup_insert_eq.
    assert (Lx1 : σ1 !! x = Some X1).
    { unfold σ1. rewrite lookup_insert_ne by done. apply lookup_insert_eq. }
    assert (Ly1 : σ1 !! y = Some Y).
    { unfold σ1. rewrite !lookup_insert_ne by done. done. }
    unfold bind at 1.
    rewrite (cost_compatible theta x y σ1 Θ1 X1 Y u i k) by done.
    rewrite (IH _ _ σ1 Θ1 X1) by done.
    f_equal.
    + f_equal. rewrite <- app_assoc. f_equal. simpl. f_equal.
      * do 2 f_equal. lia.
      * rewrite <- seq_shift, map_map. apply map_ext. intros p.
        f_equal. lia.
    + unfold σ1.
      rewrite (insert_insert_ne _ x theta) by done.
      rewrite !insert_insert_eq. done.
Qed.
End Training.

(** ** A rating matrix that numpy broadcasts *)

Lemma shaped_expand r c a : shaped r c (expand r c a).
Proof. apply shaped_mk. Qed.

Lemma expand_shaped r c a : shaped r c a → expand r c a = a.
Proof.
  intros Ha. pose proof Ha as (Hr & Hc & _). unfold expand.
  transitivity (mk r c (get a)); [|by apply mk_get].
  apply mk_ext. intros i j Hi Hj. apply bget_get; lia.
Qed.

Section Broadcast.
Context (theta x y : loc) (Θ X Y : ndarray) (u i k : nat).
Hypothesis HΘ : shaped u k Θ.
Hypothesis HX : shaped i k X.
Hypothesis HYr : nrows Y = u ∨ nrows Y = 1%nat.
Hypothesis HYc : ncols Y = i ∨ ncols Y = 1%nat.

(** [tmp = theta @ x.T - y; tmp[np.isnan(tmp)] = 0] with [y] broadcast *)
Lemma sub_mask_residual_expand :
  ∃ tmp, sub (mk u i (prediction Θ X)) Y = Some tmp
         ∧ mask_nan tmp = residual Θ X (expand u i Y).
Proof using HΘ HX HYr HYc.
  eexists. split.
  - unfold sub, elementwise. simpl nrows. simpl ncols.
    rewrite (broadcast_dim_l u (nrows Y)), (broadcast_dim_l i (ncols Y)) by done.
    reflexivity.
  - unfold mask_nan, residual. simpl nrows. simpl ncols.
    destruct HΘ as (-> & _), HX as (-> & _).
    apply mk_ext. intros a b Ha Hb. rewrite !get_mk by done.
    unfold expand. rewrite get_mk by done.
    rewrite (bget_get (mk _ _ _)) by done. rewrite get_mk by done.
    reflexivity.
Qed.

Lemma gradient_step_broadcast alpha beta σ :
  theta ≠ x →
  σ !! theta = Some Θ → σ !! x = Some X → σ !! y = Some Y →
  gradient_step theta x y alpha beta σ
  = (Ok tt, <[theta := next_theta Θ X (expand u i Y) alpha beta]>
              (<[x := next_x Θ X (expand u i Y) alpha beta]> σ)).
Proof using HΘ HX HYr HYc.
  intros Hθx Lθ Lx Ly. unfold gradient_step.
  pose proof (shaped_expand u i Y) as HY'.
  rewrite (bind_load theta Θ), (bind_load x X) by done.
  rewrite (matmul_prediction Θ X (expand u i Y) u i k) by done.
  rewrite bind_np_Some, (bind_load y Y) by done.
  destruct sub_mask_residual_expand as (tmp & -> & Hm).
  rewrite bind_np_Some. cbv zeta. rewrite Hm.
  rewrite (bind_load theta Θ) by done.
  destruct (add_delta_x Θ X (expand u i Y) u i k HΘ HX HY' beta) as (g & -> & Hdx).
  rewrite bind_np_Some, (bind_load x X) by done.
  rewrite Hdx, bind_np_Some, (bind_load x X) by done.
  destruct (add_delta_theta Θ X (expand u i Y) u i k HΘ HX HY' beta)
    as (g' & -> & Hdθ).
  rewrite bind_np_Some, (bind_load theta Θ) by done.
  rewrite Hdθ, bind_np_Some, (bind_load x X) by done.
  rewrite (isub_descend i k) by (done || by apply shaped_delta_x).
  rewrite bind_np_Some, bind_store.
  rewrite (bind_load theta Θ) by (by rewrite lookup_insert_ne).
  rewrite (isub_descend u k) by (done || by apply shaped_delta_theta).
  reflexivity.
Qed.

Lemma cost_broadcast σ :
  σ !! theta = Some Θ → σ !! x = Some X → σ !! y = Some Y →
  cost theta x y σ = (Ok (half_sum_squares (residual Θ X (expand u i Y))), σ).
Proof using HΘ HX HYr HYc.
  intros Lθ Lx Ly. unfold cost.
  pose proof (shaped_expand u i Y) as HY'.
  rewrite (bind_load theta Θ), (bind_load x X) by done.
  rewrite (matmul_prediction Θ X (expand u i Y) u i k) by done.
  rewrite bind_np_Some, (bind_load y Y) by done.
  destruct sub_mask_residual_expand as (tmp & -> & Hm).
  rewrite bind_np_Some. cbv zeta. rewrite Hm. unfold ret. do 2 f_equal.
  unfold square, half_sum_squares. rewrite asum_mk. reflexivity.
Qed.
End Broadcast.

Lemma for_range_broadcast theta x y Y u i k alpha beta n : ∀ σ Θ X,
  theta ≠ x → y ≠ theta → y ≠ x →
  nrows Y = u ∨ nrows Y = 1%nat → ncols Y = i ∨ ncols Y = 1%nat →
  σ !! theta = Some Θ → σ !! x = Some X → σ !! y = Some Y →
  shaped u k Θ → shaped i k X →
  for_range n (gradient_step theta x y alpha beta) σ
  = (Ok tt, <[theta := (descent n Θ X (expand u i Y) alpha beta).1]>
              (<[x := (descent n Θ X (expand u i Y) alpha beta).2]> σ)).
Proof.
  induction n as [|n IH]; intros σ Θ X Hθx Hyθ Hyx HYr HYc Lθ Lx Ly HΘ HX.
  - simpl. unfold ret. f_equal.
    rewrite (insert_id σ x X) by done. rewrite insert_id by done. done.
  - simpl. unfold bind at 1.
    rewrite (gradient_step_broadcast theta x y Θ X Y u i k) by done.
    rewrite (IH _ (next_theta Θ X (expand u i Y) alpha beta)
                  (next_x Θ X (expand u i Y) alpha beta)); try done.
    + f_equal. rewrite (insert_insert_ne _ x theta) by done.
      rewrite !insert_insert_eq. done.
    + apply lookup_insert_eq.
    + rewrite lookup_insert_ne by done. apply lookup_insert_eq.
    + rewrite !lookup_insert_ne by done. done.
    + by apply shaped_next_theta.
    + by apply shaped_next_x.
Qed.

(** * The claims *)

(** C1.  On matrices [Θ] (users×k), [X] (items×k), [Y] (users×items) held
    by three distinct arrays, a call of [gradient_descent] runs [max_iter]
    steps.  Each step takes [R = Θ·Xᵗ − Y], with zero at every position
    where [Y] is missing, computes [ΔX = Rᵗ·Θ + beta·X] and
    [ΔΘ = R·X + beta·Θ] from the matrices as they are when the step starts,
    and replaces [X] by [X − alpha·ΔX] and [Θ] by [Θ − alpha·ΔΘ]: the
    gradient for [Θ] reads the [X] of the start of the step. *)
Theorem gradient_descent_steps
    (σ : gmap loc ndarray) (theta x y : loc) (Θ X Y : ndarray)
    (u i k : nat) (max_iter : Z) (alpha beta : float) :
  σ !! theta = Some Θ → σ !! x = Some X → σ !! y = Some Y →
  theta ≠ x → y ≠ theta → y ≠ x →
  shaped u k Θ → shaped i k X → shaped u i Y →
  gradient_descent theta x y max_iter alpha beta σ
  = (Ok (theta, x),
     <[theta := (descent (Z.to_nat max_iter) Θ X Y alpha beta).1]>
       (<[x := (descent (Z.to_nat max_iter) Θ X Y alpha beta).2]> σ))
  ∧ gradient_step theta x y alpha beta σ
    = (Ok tt, <[theta := next_theta Θ X Y alpha beta]>
                (<[x := next_x Θ X Y alpha beta]> σ))
  ∧ ∀ Θ0 X0, shaped u k Θ0 → shaped i k X0 →
      let R := residual Θ0 X0 Y in
      descent 1 Θ0 X0 Y alpha beta
      = (next_theta Θ0 X0 Y alpha beta, next_x Θ0 X0 Y alpha beta)
      ∧ (∀ a b, (a < u)%nat → (b < i)%nat →
           is_nan (get Y a b) = true → get R a b = 0)
      ∧ (∀ a b, (a < u)%nat → (b < i)%nat →
           is_nan (prediction Θ0 X0 a b - get Y a b) = false →
           get R a b = prediction Θ0 X0 a b - get Y a b)
      ∧ (∀ b c, (b < i)%nat → (c < k)%nat →
           get (next_x Θ0 X0 Y alpha beta) b c
           = get X0 b c
             - alpha * (sumf u (λ a, get R a b * get Θ0 a c) + beta * get X0 b c))
      ∧ (∀ a c, (a < u)%nat → (c < k)%nat →
           get (next_theta Θ0 X0 Y alpha beta) a c
           = get Θ0 a c
             - alpha * (sumf i (λ b, get R a b * get X0 b c) + beta * get Θ0 a c)).
Proof.
  intros Lθ Lx Ly Hθx Hyθ Hyx HΘ HX HY. split; [|split].
  - by apply (gradient_descent_descent theta x y Y u i k).
  - by apply (gradient_step_compatible theta x y Θ X Y u i k).
  - intros Θ0 X0 (HΘr & HΘc & _) (HXr & HXc & _) R. subst R.
    split; [reflexivity|]. split; [|split; [|split]].
    + intros a b Ha Hb Hnan. unfold residual. rewrite get_mk by lia.
      cbv zeta. rewrite sub_nan_r by done. reflexivity.
    + intros a b Ha Hb Hnan. unfold residual. rewrite get_mk by lia.
      cbv zeta. rewrite Hnan. reflexivity.
    + intros b c Hb Hc. unfold next_x. rewrite get_descend by lia.
      unfold delta_x at 1. rewrite get_mk by lia. rewrite HΘr. reflexivity.
    + intros a c Ha Hc. unfold next_theta. rewrite get_descend by lia.
      unfold delta_theta at 1. rewrite get_mk by lia. rewrite HXr. reflexivity.
Qed.

Lemma gradient_descent_steps_witness :
  gradient_descent 0 1 2 3 0x1p-10 0 example_heap
  = (Ok (0%nat, 1%nat),
     <[0%nat := (descent 3 example_theta example_x example_y 0x1p-10 0).1]>
       (<[1%nat := (descent 3 example_theta example_x example_y 0x1p-10 0).2]>
          example_heap)).
Proof.
  apply (gradient_descent_steps example_heap 0 1 2
           example_theta example_x example_y 5 6 2 3 0x1p-10 0);
    try reflexivity; try discriminate; solve_shaped.
Defined.

(** C2, as stated, fails: with a 2×1 [theta], a 1×1 [x] and a 1×1 [y] the
    rows of [theta] and of [y] differ, yet [cost] returns 0.5 and
    [gradient_descent] runs its step and writes to both [x] and [theta];
    numpy broadcasts the single row of [y]. *)
Lemma shape_mismatch_not_rejected :
  nrows bcast_theta ≠ nrows bcast_y
  ∧ cost 0 1 2 bcast_heap = (Ok 0.5, bcast_heap)
  ∧ gradient_descent 0 1 2 1 0x1p-3 0 bcast_heap
    = (Ok (0%nat, 1%nat),
       <[0%nat := Ndarray 2 1 [ [1]; [1.875] ] ]>
         (<[1%nat := Ndarray 1 1 [ [0.75] ] ]> bcast_heap)).
Proof.
  split; [|split].
  - simpl. lia.
  - vm_compute. reflexivity.
  - vm_compute. reflexivity.
Qed.

(** C2, amended.  When [theta] and [x] differ in their number of columns,
    or [y] has neither the rows of [theta] nor a single row, or [y] has
    neither as many columns as [x] has rows nor a single column, a call of
    [gradient_descent] with [max_iter ≥ 1] raises numpy's [ValueError] and
    the heap is as it was: neither [x] nor [theta] is written.  [cost]
    raises [ValueError], the heap as it was, when the column numbers differ
    or the rows of [theta] and [y] (or the rows of [x] and the columns of
    [y]) differ and neither is 1.  Whenever [gradient_descent] raises, it
    is that exception and nothing has been written. *)
Theorem shape_mismatch_raises
    (σ : gmap loc ndarray) (theta x y : loc) (Θ X Y : ndarray)
    (max_iter : Z) (alpha beta : float) :
  σ !! theta = Some Θ → σ !! x = Some X → σ !! y = Some Y →
  theta ≠ x → y ≠ theta → y ≠ x →
  (ncols Θ ≠ ncols X
   ∨ (nrows Y ≠ nrows Θ ∧ nrows Y ≠ 1%nat)
   ∨ (ncols Y ≠ nrows X ∧ ncols Y ≠ 1%nat) →
   (1 ≤ max_iter)%Z →
   gradient_descent theta x y max_iter alpha beta σ = (Raise ValueError, σ))
  ∧ (ncols Θ ≠ ncols X
     ∨ (nrows Θ ≠ nrows Y ∧ nrows Θ ≠ 1%nat ∧ nrows Y ≠ 1%nat)
     ∨ (nrows X ≠ ncols Y ∧ nrows X ≠ 1%nat ∧ ncols Y ≠ 1%nat) →
     cost theta x y σ = (Raise ValueError, σ))
  ∧ (∀ e σ', gradient_descent theta x y max_iter alpha beta σ = (Raise e, σ') →
             e = ValueError ∧ σ' = σ).
Proof.
  intros Lθ Lx Ly Hθx Hyθ Hyx. split; [|split].
  - intros Hbad Hpos.
    assert (E : step_shapes_ok Θ X Y = false).
    { destruct (step_shapes_ok Θ X Y) eqn:E; [|done].
      apply step_shapes_ok_true in E. lia. }
    unfold gradient_descent, bind.
    destruct (Z.to_nat max_iter) as [|n] eqn:En; [lia|].
    rewrite (for_range_shapes_bad theta x y alpha beta Y n σ Θ X) by done.
    reflexivity.
  - intros Hbad.
    pose proof (cost_shapes theta x y σ Θ X Y Lθ Lx Ly) as H.
    destruct (cost_shapes_ok Θ X Y) eqn:E; [|done].
    apply cost_shapes_ok_true in E. lia.
  - intros e σ'. unfold gradient_descent, bind.
    destruct (step_shapes_ok Θ X Y) eqn:E.
    + destruct (for_range_shapes_ok theta x y alpha beta Y (Z.to_nat max_iter) σ Θ X)
        as (Θ' & X' & -> & _); done.
    + destruct (Z.to_nat max_iter) as [|n]; [done|].
      rewrite (for_range_shapes_bad theta x y alpha beta Y n σ Θ X) by done.
      intros [= <- <-]. done.
Qed.

Lemma shape_mismatch_raises_witness :
  gradient_descent 0 1 2 3 0x1p-3 0
    (<[0%nat := example_theta]> (<[1%nat := bcast_x]> (<[2%nat := example_y]> ∅)))
  = (Raise ValueError,
     <[0%nat := example_theta]> (<[1%nat := bcast_x]> (<[2%nat := example_y]> ∅))).
Proof.
  refine (proj1 (shape_mismatch_raises _ 0 1 2 example_theta bcast_x example_y
                   3 0x1p-3 0 _ _ _ _ _ _) _ _);
    try reflexivity; try lia.
  left. simpl. lia.
Defined.

(** C3, as stated, fails: with the learning rate [-0.5] the function
    raises nothing and writes to [x] and [theta]; with [max_iter = -5] it
    raises nothing and returns; so it does with [beta = -1]. *)
Lemma invalid_config_not_rejected :
  (-0.5 <=? 0) = true
  ∧ gradient_descent 0 1 2 1 (-0.5) 0 tiny_heap
    = (Ok (0%nat, 1%nat),
       <[0%nat := Ndarray 1 1 [ [1.5] ] ]>
         (<[1%nat := Ndarray 1 1 [ [1.5] ] ]> tiny_heap))
  ∧ gradient_descent 0 1 2 (-5) 0.5 0 tiny_heap = (Ok (0%nat, 1%nat), tiny_heap)
  ∧ (gradient_descent 0 1 2 1 0.5 (-1) tiny_heap).1 = Ok (0%nat, 1%nat).
Proof. repeat split; vm_compute; reflexivity. Qed.

(** C3, amended.  [gradient_descent] checks none of [alpha], [beta] and
    [max_iter]: whatever they are (a learning rate that is zero or
    negative, a negative [beta], a negative [max_iter]) it raises no
    exception of its own.  With [max_iter ≤ 0] it returns [(theta, x)] at
    once, nothing written.  With [max_iter ≥ 1], on shapes that fit, it
    returns [(theta, x)] after its steps, and the steps are those of the
    update rule with the [alpha] and [beta] it was given, whatever their
    sign: [X − alpha·(Rᵗ·Θ + beta·X)] and [Θ − alpha·(R·X + beta·Θ)], the
    rating matrix being [y] broadcast to users×items ([y] itself when it
    has that shape).  And the one exception it can raise is numpy's
    [ValueError], on shapes that do not fit. *)
Theorem config_never_rejected
    (σ : gmap loc ndarray) (theta x y : loc) (Θ X Y : ndarray)
    (max_iter : Z) (alpha beta : float) :
  σ !! theta = Some Θ → σ !! x = Some X → σ !! y = Some Y →
  theta ≠ x → y ≠ theta → y ≠ x →
  ((max_iter ≤ 0)%Z →
   gradient_descent theta x y max_iter alpha beta σ = (Ok (theta, x), σ))
  ∧ (step_shapes_ok Θ X Y = true →
     ∃ σ', gradient_descent theta x y max_iter alpha beta σ = (Ok (theta, x), σ'))
  ∧ (wf Θ → wf X → step_shapes_ok Θ X Y = true →
     let Y' := expand (nrows Θ) (nrows X) Y in
     gradient_descent theta x y max_iter alpha beta σ
     = (Ok (theta, x),
        <[theta := (descent (Z.to_nat max_iter) Θ X Y' alpha beta).1]>
          (<[x := (descent (Z.to_nat max_iter) Θ X Y' alpha beta).2]> σ))
     ∧ (shaped (nrows Θ) (nrows X) Y → Y' = Y)
     ∧ ∀ Θ0 X0, shaped (nrows Θ) (ncols Θ) Θ0 → shaped (nrows X) (ncols Θ) X0 →
         let R := residual Θ0 X0 Y' in
         descent 1 Θ0 X0 Y' alpha beta
         = (next_theta Θ0 X0 Y' alpha beta, next_x Θ0 X0 Y' alpha beta)
         ∧ (∀ b c, (b < nrows X)%nat → (c < ncols Θ)%nat →
              get (next_x Θ0 X0 Y' alpha beta) b c
              = get X0 b c
                - alpha * (sumf (nrows Θ) (λ a, get R a b * get Θ0 a c)
                           + beta * get X0 b c))
         ∧ (∀ a c, (a < nrows Θ)%nat → (c < ncols Θ)%nat →
              get (next_theta Θ0 X0 Y' alpha beta) a c
              = get Θ0 a c
                - alpha * (sumf (nrows X) (λ b, get R a b * get X0 b c)
                           + beta * get Θ0 a c)))
  ∧ (∀ e σ', gradient_descent theta x y max_iter alpha beta σ = (Raise e, σ') →
             e = ValueError ∧ step_shapes_ok Θ X Y = false ∧ (1 ≤ max_iter)%Z).
Proof.
  intros Lθ Lx Ly Hθx Hyθ Hyx. split; [|split; [|split]].
  - intros Hle. unfold gradient_descent.
    replace (Z.to_nat max_iter) with 0%nat by lia. reflexivity.
  - intros Hok. unfold gradient_descent, bind.
    destruct (for_range_shapes_ok theta x y alpha beta Y (Z.to_nat max_iter) σ Θ X)
      as (Θ' & X' & -> & _); try done. eauto.
  - intros HwΘ HwX (Hk & Hr & Hc)%step_shapes_ok_true Y'. subst Y'.
    assert (HΘ : shaped (nrows Θ) (ncols Θ) Θ) by done.
    assert (HX : shaped (nrows X) (ncols Θ) X) by done.
    split; [|split].
    + unfold gradient_descent, bind.
      rewrite (for_range_broadcast theta x y Y (nrows Θ) (nrows X) (ncols Θ)
                 alpha beta _ σ Θ X) by done.
      reflexivity.
    + apply expand_shaped.
    + intros Θ0 X0 (HΘr & HΘc & _) (HXr & HXc & _) R. subst R.
      split; [reflexivity|]. split.
      * intros b c Hb Hc'. unfold next_x. rewrite get_descend by lia.
        unfold delta_x at 1. rewrite get_mk by lia. rewrite HΘr. reflexivity.
      * intros a c Ha Hc'. unfold next_theta. rewrite get_descend by lia.
        unfold delta_theta at 1. rewrite get_mk by lia. rewrite HXr. reflexivity.
  - intros e σ'. unfold gradient_descent, bind.
    destruct (step_shapes_ok Θ X Y) eqn:E.
    + destruct (for_range_shapes_ok theta x y alpha beta Y (Z.to_nat max_iter) σ Θ X)
        as (Θ' & X' & -> & _); done.
    + destruct (Z.to_nat max_iter) as [|n] eqn:En; [done|].
      rewrite (for_range_shapes_bad theta x y alpha beta Y n σ Θ X) by done.
      intros [= <- <-]. repeat split. lia.
Qed.

Lemma config_never_rejected_witness :
  gradient_descent 0 1 2 4 (-0.5) (-1) example_heap
  = (Ok (0%nat, 1%nat),
     <[0%nat := (descent 4 example_theta example_x
                   (expand (nrows example_theta) (nrows example_x) example_y)
                   (-0.5) (-1)).1]>
       (<[1%nat := (descent 4 example_theta example_x
                      (expand (nrows example_theta) (nrows example_x) example_y)
                      (-0.5) (-1)).2]> example_heap)).
Proof.
  pose proof (config_never_rejected example_heap 0 1 2
                example_theta example_x example_y 4 (-0.5) (-1)) as H.
  destruct H as (_ & _ & H & _);
    [ reflexivity | reflexivity | reflexivity | discriminate | discriminate
    | discriminate | ].
  destruct H as (H & _);
    [ split; [reflexivity|repeat constructor]
    | split; [reflexivity|repeat constructor]
    | reflexivity | ].
  exact H.
Defined.

(** C4, as stated, fails: with an infinite parameter against a zero
    feature the prediction [inf * 0] is not a number at a position where
    the rating is observed; the code sets the residual there to zero and
    returns 0, whereas half the sum of squares of the residual masked at the
    missing positions of [Y] alone is not a number.  And on finite matrices
    whose prediction overflows to [+inf] the cost returned is [+inf], which
    is no real number. *)
Lemma cost_masks_more_than_missing :
  is_nan (get clash_y 0 0) = false
  ∧ cost 0 1 2 nan_pred_heap = (Ok 0, nan_pred_heap)
  ∧ is_nan (half_sum_squares (residual_masked_by_y inf_theta zero_x clash_y))
    = true
  ∧ all_entries is_finite big_theta = true
  ∧ all_entries is_finite big_x = true
  ∧ all_entries is_finite tiny_y = true
  ∧ cost 0 1 2 big_heap = (Ok infinity, big_heap).
Proof. repeat split; vm_compute; reflexivity. Qed.

(** C4, amended.  On compatible shapes [cost] returns, writing nothing,
    exactly half the sum of the squares of the residual [Θ·Xᵗ − Y] whose
    entries that are not a number are replaced by 0.  That value is never
    negative and never not-a-number (it is [+inf] when a square overflows),
    and no penalty term enters it: the function takes no [beta].  When no
    entry of [Θ·Xᵗ] is not-a-number (and every rating is a real number or
    missing) it is half the sum of squares of the residual with the entries
    at the missing positions of [Y] replaced by 0. *)
Theorem cost_half_sum_squares
    (σ : gmap loc ndarray) (theta x y : loc) (Θ X Y : ndarray) (u i k : nat) :
  σ !! theta = Some Θ → σ !! x = Some X → σ !! y = Some Y →
  shaped u k Θ → shaped i k X → shaped u i Y →
  cost theta x y σ = (Ok (half_sum_squares (residual Θ X Y)), σ)
  ∧ (0 <=? half_sum_squares (residual Θ X Y)) = true
  ∧ is_nan (half_sum_squares (residual Θ X Y)) = false
  ∧ ((∀ a b, (a < u)%nat → (b < i)%nat → is_nan (prediction Θ X a b) = false) →
     all_entries rating Y = true →
     cost theta x y σ
     = (Ok (half_sum_squares (residual_masked_by_y Θ X Y)), σ)).
Proof.
  intros Lθ Lx Ly HΘ HX HY.
  pose proof (cost_compatible theta x y σ Θ X Y u i k Lθ Lx Ly HΘ HX HY) as E.
  pose proof (half_sum_squares_nonneg Θ X Y) as Hnn.
  split; [done|]. split; [by apply nonneg_leb|]. split; [by apply nonneg_not_nan|].
  intros Hp Hy. rewrite E.
  rewrite (residual_masked_by_y_eq Θ X Y u i k) by done. reflexivity.
Qed.

Lemma cost_half_sum_squares_witness :
  cost 0 1 2 example_heap
  = (Ok (half_sum_squares (residual example_theta example_x example_y)),
     example_heap).
Proof.
  refine (proj1 (cost_half_sum_squares example_heap 0 1 2
                   example_theta example_x example_y 5 6 2 _ _ _ _ _ _));
    try reflexivity; repeat split; try reflexivity; repeat constructor.
Defined.

(** C5, as stated, fails: with [alpha = 0] and [beta = 0], on finite
    matrices whose gradient overflows, one step turns the entries of [x] and
    [theta] into not-a-number ([0 * inf]).  And where the gradient is
    negative, a feature that is the negative zero becomes the positive zero
    ([-0.0 - (-0.0)]). *)
Lemma zero_rate_overflow :
  all_entries is_finite big_theta = true
  ∧ all_entries is_finite big_x = true
  ∧ all_entries is_finite tiny_y = true
  ∧ big_heap !! 1%nat = Some (Ndarray 1 1 [ [0x1p+600] ])
  ∧ gradient_descent 0 1 2 1 0 0 big_heap
    = (Ok (0%nat, 1%nat),
       <[0%nat := Ndarray 1 1 [ [nan] ] ]>
         (<[1%nat := Ndarray 1 1 [ [nan] ] ]> big_heap))
  ∧ (gradient_descent 0 1 2 1 0 0 negzero_heap).2 !! 1%nat
    = Some (Ndarray 1 1 [ [0] ]).
Proof. repeat split; vm_compute; reflexivity. Qed.

(** C5, amended.  With [alpha = 0] and [beta = 0], on compatible shapes,
    a run of any length leaves [x] and [theta] (the whole heap) unchanged
    provided the gradients [ΔX] and [ΔΘ] of the initial matrices have only
    finite entries and no entry of [X] or [Θ] is the negative zero (which a
    step may turn into the positive zero). *)
Theorem zero_rate_is_noop
    (σ : gmap loc ndarray) (theta x y : loc) (Θ X Y : ndarray)
    (u i k : nat) (max_iter : Z) :
  σ !! theta = Some Θ → σ !! x = Some X → σ !! y = Some Y →
  theta ≠ x → y ≠ theta → y ≠ x →
  shaped u k Θ → shaped i k X → shaped u i Y →
  all_entries is_finite (delta_x (residual Θ X Y) Θ X 0) = true →
  all_entries is_finite (delta_theta (residual Θ X Y) Θ X 0) = true →
  all_entries (λ f, negb (is_neg_zero f)) X = true →
  all_entries (λ f, negb (is_neg_zero f)) Θ = true →
  gradient_descent theta x y max_iter 0 0 σ = (Ok (theta, x), σ).
Proof.
  intros Lθ Lx Ly Hθx Hyθ Hyx HΘ HX HY HfX HfΘ HzX HzΘ.
  rewrite (gradient_descent_descent theta x y Y u i k 0 0) with (Θ := Θ) (X := X)
    by done.
  assert (Hfix : ∀ n, descent n Θ X Y 0 0 = (Θ, X)).
  { induction n as [|n IH]; [done|]. simpl.
    unfold next_theta, next_x.
    rewrite (descend_zero_rate u k Θ), (descend_zero_rate i k X);
      try done; [by apply shaped_delta_x|by apply shaped_delta_theta]. }
  rewrite Hfix. simpl.
  rewrite (insert_id σ x X) by done. rewrite insert_id by done. done.
Qed.

Lemma zero_rate_is_noop_witness :
  gradient_descent 0 1 2 1000 0 0 example_heap = (Ok (0%nat, 1%nat), example_heap).
Proof.
  apply (zero_rate_is_noop example_heap 0 1 2 example_theta example_x example_y
           5 6 2 1000);
    try reflexivity; try lia; repeat split; try reflexivity; repeat constructor.
Defined.

(** C6, as stated, fails: the only user has no rating and [beta = 0], yet
    with an infinite feature in [X] one step turns the user's parameter
    from 1 into not-a-number ([0 * inf] in [ΔΘ]); and the parameter of that
    user has an effect on [X], which the step leaves at 1 when the
    parameter is 1 and turns into not-a-number when it is infinite. *)
Lemma missing_row_not_isolated :
  forallb is_nan (row unrated_y 0) = true
  ∧ inf_x_heap !! 0%nat = Some (Ndarray 1 1 [ [1] ])
  ∧ (gradient_descent 0 1 2 1 0.5 0 inf_x_heap).2 !! 0%nat
    = Some (Ndarray 1 1 [ [nan] ])
  ∧ (gradient_descent 0 1 2 1 0.5 0 unrated_heap).2 !! 1%nat
    = Some (Ndarray 1 1 [ [1] ])
  ∧ (gradient_descent 0 1 2 1 0.5 0 inf_theta_heap).2 !! 1%nat
    = Some (Ndarray 1 1 [ [nan] ]).
Proof. repeat split; vm_compute; reflexivity. Qed.

(** C6, amended.  Let every rating of user [u0] be missing and [beta = 0],
    on compatible shapes.  Every square that user's row contributes to the
    cost is zero, and the cost is half the sum of the squares of the other
    rows.  When the entries of [X] and of that user's row of [Θ] are finite
    and the learning rate is a positive finite number, one step leaves that
    user's row of [Θ] as it was.  And when that user's row of [Θ] is finite,
    then whatever finite parameters the user has instead, the step writes
    the same [X] and the same rows of [Θ] for every other user. *)
Theorem missing_user_row
    (σ : gmap loc ndarray) (theta x y : loc) (Θ X Y : ndarray)
    (u i k u0 : nat) (alpha : float) :
  σ !! theta = Some Θ → σ !! x = Some X → σ !! y = Some Y →
  theta ≠ x → y ≠ theta →
  shaped u k Θ → shaped i k X → shaped u i Y →
  (u0 < u)%nat →
  forallb is_nan (row Y u0) = true →
  let R := residual Θ X Y in
  gradient_step theta x y alpha 0 σ
  = (Ok tt, <[theta := next_theta Θ X Y alpha 0]>
              (<[x := next_x Θ X Y alpha 0]> σ))
  ∧ (∀ b, (b < i)%nat → get R u0 b * get R u0 b = 0)
  ∧ cost theta x y σ = (Ok (0.5 * asum (drop_row u0 (square R))), σ)
  ∧ (all_entries is_finite X = true →
     forallb is_finite (row Θ u0) = true →
     is_finite alpha = true → (0 <? alpha) = true →
     row (next_theta Θ X Y alpha 0) u0 = row Θ u0)
  ∧ (forallb is_finite (row Θ u0) = true →
     ∀ v, length v = k → forallb is_finite v = true →
       let Θv := set_row u0 v Θ in
       gradient_step theta x y alpha 0 (<[theta := Θv]> σ)
       = (Ok tt, <[theta := next_theta Θv X Y alpha 0]>
                   (<[x := next_x Θv X Y alpha 0]> (<[theta := Θv]> σ)))
       ∧ next_x Θv X Y alpha 0 = next_x Θ X Y alpha 0
       ∧ ∀ a, (a < u)%nat → a ≠ u0 →
           row (next_theta Θv X Y alpha 0) a = row (next_theta Θ X Y alpha 0) a).
Proof.
  intros Lθ Lx Ly Hθx Hyθ HΘ HX HY Hu0 Hmiss R.
  pose proof HΘ as (HΘr & HΘc & _). pose proof HX as (HXr & HXc & _).
  assert (HR0 : ∀ b, (b < i)%nat → get R u0 b = 0).
  { intros b Hb. by apply (residual_missing_row Θ X Y u i k u0). }
  split; [by apply (gradient_step_compatible theta x y Θ X Y u i k)|].
  split; [|split; [|split]].
  - intros b Hb. rewrite HR0 by done. reflexivity.
  - rewrite (cost_compatible theta x y σ Θ X Y u i k) by done.
    do 3 f_equal. unfold half_sum_squares. fold R.
    rewrite <- asum_mk. fold (square R). f_equal. apply asum_drop_zero_row.
    intros z [_ ->]%rows_mk_lookup. apply Forall_forall.
    intros s [b [<- [_ Hb]%List.in_seq]]%list_elem_of_In%List.in_map_iff.
    pose proof (shaped_residual Θ X Y u i k HΘ HX) as (_ & HRc & _).
    fold R in HRc. rewrite HR0 by lia. exact I.
  - intros HfX HfΘ Hfα Hα.
    unfold next_theta, descend. rewrite HΘr, HΘc, row_mk by done.
    rewrite (row_get u k Θ u0) by done.
    apply map_ext_in. intros c [_ Hc]%List.in_seq.
    rewrite (delta_theta_missing_row Θ X Y u i k u0) by (done || lia).
    rewrite pos_mul_zero by done. apply sub_zero.
  - intros HfΘ v Hv Hfv Θv.
    assert (HΘv : shaped u k Θv) by (by apply shaped_set_row).
    split; [|split].
    + apply (gradient_step_compatible theta x y Θv X Y u i k); try done.
      * apply lookup_insert_eq.
      * rewrite lookup_insert_ne by done. done.
      * rewrite lookup_insert_ne by done. done.
    + unfold next_x. unfold Θv.
      rewrite (delta_x_set_row Θ X Y u i k u0) by done. reflexivity.
    + intros a Ha Hne. unfold next_theta, descend. simpl nrows. simpl ncols.
      rewrite HΘr, HΘc, !row_mk by done.
      apply map_ext_in. intros c [_ Hc]%List.in_seq.
      unfold Θv. rewrite get_set_row_ne by done.
      rewrite (delta_theta_set_row Θ X Y u i k u0) by (done || lia).
      reflexivity.
Qed.

Lemma missing_user_row_witness :
  row (next_theta example_theta example_x example_y 0x1p-10 0) 4
  = row example_theta 4.
Proof.
  refine (proj1 (proj2 (proj2 (proj2
            (missing_user_row example_heap 0 1 2
               example_theta example_x example_y 5 6 2 4 0x1p-10
               _ _ _ _ _ _ _ _ _ _)))) _ _ _ _);
    try reflexivity; try lia; repeat split; try reflexivity; repeat constructor.
Defined.

(** C7.  Running [m] steps and then, on the arrays returned, [n] more
    steps is the same computation as running [m + n] steps at once: the
    same result, the same heap, and the same exception if one is raised.
    And on compatible shapes the loop of the notebook, which calls the
    optimizer for one step at a time and [cost] after each, leaves in
    [theta] and [x] what a single call for [n] steps leaves, the cost it
    records at pass [p] being that of the matrices after [p + 1] steps. *)
Theorem gradient_descent_compose
    (σ : gmap loc ndarray) (theta x y : loc) (m n : Z) (alpha beta : float) :
  (0 ≤ m)%Z → (0 ≤ n)%Z →
  (let* r := gradient_descent theta x y m alpha beta in
   gradient_descent r.1 r.2 y n alpha beta) σ
  = gradient_descent theta x y (m + n) alpha beta σ
  ∧ ∀ Θ X Y u i k,
      σ !! theta = Some Θ → σ !! x = Some X → σ !! y = Some Y →
      theta ≠ x → y ≠ theta → y ≠ x →
      shaped u k Θ → shaped i k X → shaped u i Y →
      training_loop (Z.to_nat n) 0 theta x y alpha beta [] σ
      = (Ok (map (λ p, (Z.of_nat p,
                        half_sum_squares
                          (residual (descent (S p) Θ X Y alpha beta).1
                                    (descent (S p) Θ X Y alpha beta).2 Y)))
                 (seq 0 (Z.to_nat n))),
         (gradient_descent theta x y n alpha beta σ).2).
Proof.
  intros Hm Hn. split.
  - unfold gradient_descent.
    rewrite Z2Nat.inj_add by done.
    rewrite bind_assoc. unfold bind at 1 4.
    rewrite for_range_add. unfold bind at 3.
    destruct (for_range (Z.to_nat m) _ σ) as [[[]|e] σ']; reflexivity.
  - intros Θ X Y u i k Lθ Lx Ly Hθx Hyθ Hyx HΘ HX HY.
    rewrite (training_loop_descent theta x y Y u i k alpha beta)
      with (Θ := Θ) (X := X) by done.
    rewrite (gradient_descent_descent theta x y Y u i k alpha beta)
      with (Θ := Θ) (X := X) by done.
    reflexivity.
Qed.

Lemma gradient_descent_compose_witness :
  (let* r := gradient_descent 0 1 2 2 0x1p-10 0 in
   gradient_descent r.1 r.2 2 3 0x1p-10 0) example_heap
  = gradient_descent 0 1 2 (2 + 3) 0x1p-10 0 example_heap.
Proof. apply gradient_descent_compose; lia. Defined.

(** C8.  Neither function writes to the rating matrix: after
    [gradient_descent], whether it returned or raised, the array [y] (an
    object other than [theta] and [x]) holds what it held.  [cost] leaves
    the whole heap, so [theta], [x] and [y], as it was, and what it returns
    depends on nothing but the three arrays. *)
Theorem rating_matrix_never_written
    (σ : gmap loc ndarray) (theta x y : loc) (max_iter : Z) (alpha beta : float) :
  y ≠ theta → y ≠ x →
  (gradient_descent theta x y max_iter alpha beta σ).2 !! y = σ !! y
  ∧ (cost theta x y σ).2 = σ
  ∧ ∀ σ', σ' !! theta = σ !! theta → σ' !! x = σ !! x → σ' !! y = σ !! y →
          (cost theta x y σ').1 = (cost theta x y σ).1.
Proof.
  intros Hyθ Hyx. split; [|split].
  - apply gradient_descent_writes.
    rewrite !elem_of_cons, elem_of_nil. intros [|[|[]]]; done.
  - apply cost_heap.
  - intros σ'. apply cost_depends_on_inputs.
Qed.

Lemma rating_matrix_never_written_witness :
  (gradient_descent 0 1 2 4 0x1p-10 0x1p-3 example_heap).2 !! 2%nat
  = example_heap !! 2%nat
  ∧ (cost 0 1 2 example_heap).2 = example_heap.
Proof.
  pose proof (rating_matrix_never_written example_heap 0 1 2 4 0x1p-10 0x1p-3)
    as H.
  split; apply H; lia.
Defined.

(** C9.  On compatible inputs a run of [gradient_descent] returns, and the
    arrays [theta] and [x] then hold well-formed matrices of the shapes they
    had: [x] is items×k, [theta] is users×k, with the same [k]. *)
Theorem gradient_descent_keeps_shapes
    (σ : gmap loc ndarray) (theta x y : loc) (Θ X Y : ndarray)
    (u i k : nat) (max_iter : Z) (alpha beta : float) :
  σ !! theta = Some Θ → σ !! x = Some X → σ !! y = Some Y →
  theta ≠ x → y ≠ theta → y ≠ x →
  shaped u k Θ → shaped i k X → shaped u i Y →
  ∃ σ' Θ' X',
    gradient_descent theta x y max_iter alpha beta σ = (Ok (theta, x), σ')
    ∧ σ' !! theta = Some Θ' ∧ σ' !! x = Some X' ∧ σ' !! y = Some Y
    ∧ shaped u k Θ' ∧ shaped i k X' ∧ ncols Θ' = ncols X'.
Proof.
  intros Lθ Lx Ly Hθx Hyθ Hyx HΘ HX HY.
  destruct (shaped_descent Y u i k alpha beta (Z.to_nat max_iter) Θ X HΘ HX)
    as [HΘ' HX'].
  eexists _, _, _. split; [|split; [|split; [|split; [|split; [|split]]]]].
  - by apply (gradient_descent_descent theta x y Y u i k).
  - apply lookup_insert_eq.
  - rewrite lookup_insert_ne by done. apply lookup_insert_eq.
  - rewrite !lookup_insert_ne by done. done.
  - done.
  - done.
  - destruct HΘ' as (_ & -> & _), HX' as (_ & -> & _). done.
Qed.

Lemma gradient_descent_keeps_shapes_witness :
  ∃ σ' Θ' X',
    gradient_descent 0 1 2 7 0x1p-10 0x1p-3 example_heap = (Ok (0%nat, 1%nat), σ')
    ∧ σ' !! 0%nat = Some Θ' ∧ σ' !! 1%nat = Some X' ∧ σ' !! 2%nat = Some example_y
    ∧ shaped 5 2 Θ' ∧ shaped 6 2 X' ∧ ncols Θ' = ncols X'.
Proof.
  apply (gradient_descent_keeps_shapes example_heap 0 1 2
           example_theta example_x example_y 5 6 2 7 0x1p-10 0x1p-3);
    try reflexivity; try discriminate; solve_shaped.
Defined.

(** C10, as stated, fails: a prediction that has overflowed to [+inf],
    which is a number, against a rating that is [+inf], which is not
    missing, gives the difference [inf − inf]; the code zeroes that entry
    ([cost] returns 0), whereas zeroing the entries at the missing
    positions of [Y] leaves it not-a-number. *)
Lemma mask_zeroes_infinite_rating :
  all_entries is_finite big_theta = true
  ∧ all_entries is_finite big_x = true
  ∧ is_nan (prediction big_theta big_x 0 0) = false
  ∧ is_nan (get inf_y 0 0) = false
  ∧ get (residual big_theta big_x inf_y) 0 0 = 0
  ∧ cost 0 1 2 inf_rating_heap = (Ok 0, inf_rating_heap)
  ∧ is_nan (get (residual_masked_by_y big_theta big_x inf_y) 0 0) = true
  ∧ residual big_theta big_x inf_y ≠ residual_masked_by_y big_theta big_x inf_y.
Proof.
  repeat split; try (vm_compute; reflexivity).
  intros H. apply (f_equal (λ a, is_nan (get a 0 0))) in H.
  vm_compute in H. discriminate.
Qed.

(** C10, amended.  In both functions the mask is taken on the computed
    difference [Θ·Xᵗ − Y], not on [Y]: [cost] returns half the sum of
    squares of, and a step of [gradient_descent] descends along, the
    residual whose entry is 0 wherever that difference is not a number.
    When no entry of [Θ·Xᵗ] is not-a-number and every rating is a real
    number or missing, this is the residual with 0 at the missing positions
    of [Y] and nowhere else; but an entry of [Θ·Xᵗ] that is not a number
    makes the residual 0 there too, also where the rating is observed. *)
Theorem mask_tests_the_difference
    (σ : gmap loc ndarray) (theta x y : loc) (Θ X Y : ndarray)
    (u i k : nat) (alpha beta : float) :
  σ !! theta = Some Θ → σ !! x = Some X → σ !! y = Some Y →
  theta ≠ x →
  shaped u k Θ → shaped i k X → shaped u i Y →
  let R := residual Θ X Y in
  cost theta x y σ = (Ok (half_sum_squares R), σ)
  ∧ gradient_step theta x y alpha beta σ
    = (Ok tt, <[theta := descend Θ (delta_theta R Θ X beta) alpha]>
                (<[x := descend X (delta_x R Θ X beta) alpha]> σ))
  ∧ (∀ a b, (a < u)%nat → (b < i)%nat →
       get R a b = if is_nan (prediction Θ X a b - get Y a b) then 0
                   else prediction Θ X a b - get Y a b)
  ∧ ((∀ a b, (a < u)%nat → (b < i)%nat → is_nan (prediction Θ X a b) = false) →
     all_entries rating Y = true →
     R = residual_masked_by_y Θ X Y)
  ∧ (∀ a b, (a < u)%nat → (b < i)%nat →
       is_nan (prediction Θ X a b) = true → get R a b = 0).
Proof.
  intros Lθ Lx Ly Hθx HΘ HX HY R. subst R.
  split; [by apply (cost_compatible theta x y σ Θ X Y u i k)|].
  split; [by apply (gradient_step_compatible theta x y Θ X Y u i k)|].
  pose proof HΘ as (HΘr & _). pose proof HX as (HXr & _).
  split; [|split].
  - intros a b Ha Hb. unfold residual. rewrite get_mk by lia. reflexivity.
  - by apply (residual_masked_by_y_eq Θ X Y u i k).
  - intros a b Ha Hb Hnan. unfold residual. rewrite get_mk by lia.
    cbv zeta. rewrite sub_nan_l by done. reflexivity.
Qed.

Lemma mask_tests_the_difference_witness :
  is_nan (get clash_y 0 0) = false
  ∧ get (residual inf_theta zero_x clash_y) 0 0 = 0.
Proof.
  split; [reflexivity|].
  refine (proj2 (proj2 (proj2 (proj2
            (mask_tests_the_difference nan_pred_heap 0 1 2
               inf_theta zero_x clash_y 1 1 1 0x1p-3 0 _ _ _ _ _ _ _))))
            0%nat 0%nat _ _ _);
    try reflexivity; try lia; repeat split; try reflexivity; repeat constructor.
Defined.

(** * Further properties: the lemmas *)

(** ** Exchanging the users and the items *)

Lemma SFmul_comm prec emax s t : SFmul prec emax s t = SFmul prec emax t s.
Proof.
  destruct s as [[]|[]| |[] ms es], t as [[]|[]| |[] mt et]; simpl; try reflexivity;
    rewrite (Pos.mul_comm ms mt), (Z.add_comm es et); reflexivity.
Qed.

Lemma mul_comm x y : x * y = y * x.
Proof. apply Prim2SF_inj. rewrite !mul_spec. apply SFmul_comm. Qed.

Lemma prediction_swap Θ X a b :
  ncols Θ = ncols X → prediction X Θ b a = prediction Θ X a b.
Proof.
  intros Hk. unfold prediction. rewrite Hk. apply sumf_ext.
  intros p _. apply mul_comm.
Qed.

Section Swap.
Context (Θ X Y : ndarray) (u i k : nat).
Hypothesis HΘ : shaped u k Θ.
Hypothesis HX : shaped i k X.
Hypothesis HY : shaped u i Y.

Lemma get_residual_swap a b :
  (a < u)%nat → (b < i)%nat →
  get (residual X Θ (transpose Y)) b a = get (residual Θ X Y) a b.
Proof using HΘ HX HY.
  intros Ha Hb.
  pose proof HΘ as (HΘr & HΘc & _). pose proof HX as (HXr & HXc & _).
  pose proof HY as (HYr & HYc & _).
  unfold residual. rewrite !get_mk by lia. cbv zeta.
  rewrite get_transpose by lia.
  rewrite (prediction_swap Θ X a b) by congruence. reflexivity.
Qed.

Lemma next_theta_swap alpha beta :
  next_theta X Θ (transpose Y) alpha beta = next_x Θ X Y alpha beta.
Proof using HΘ HX HY.
  pose proof HΘ as (HΘr & HΘc & _). pose proof HX as (HXr & HXc & _).
  unfold next_theta, next_x, descend. apply mk_ext. intros b c Hb Hc.
  do 2 f_equal. unfold delta_theta, delta_x. rewrite !get_mk by done.
  f_equal. apply sumf_ext. intros a Ha.
  rewrite get_residual_swap by lia. reflexivity.
Qed.

Lemma next_x_swap alpha beta :
  next_x X Θ (transpose Y) alpha beta = next_theta Θ X Y alpha beta.
Proof using HΘ HX HY.
  pose proof HΘ as (HΘr & HΘc & _). pose proof HX as (HXr & HXc & _).
  unfold next_theta, next_x, descend. apply mk_ext. intros a c Ha Hc.
  do 2 f_equal. unfold delta_theta, delta_x. rewrite !get_mk by done.
  f_equal. apply sumf_ext. intros b Hb.
  rewrite get_residual_swap by lia. reflexivity.
Qed.
End Swap.


(** ** The mask, and the cost on any shapes *)

Lemma mask_nan_not_nan a i j :
  (i < nrows a)%nat → (j < ncols a)%nat → is_nan (get (mask_nan a) i j) = false.
Proof.
  intros Hi Hj. unfold mask_nan. rewrite get_mk by done.
  destruct (is_nan (get a i j)) eqn:E; done.
Qed.

Lemma asum_square_mask_nonneg a : nonneg (asum (square (mask_nan a))).
Proof.
  unfold square. rewrite asum_mk. apply sum2_nonneg.
  intros i j Hi Hj. apply nonneg_mul_self, mask_nan_not_nan; done.
Qed.

(** Whatever the shapes, a cost that is returned is half a sum of squares
    of numbers: not negative, and a number. *)
Lemma cost_returns_nonneg theta x y σ v σ' :
  cost theta x y σ = (Ok v, σ') → nonneg v.
Proof.
  unfold cost, bind, load.
  destruct (σ !! theta) as [Θ|]; [|done].
  destruct (σ !! x) as [X|]; [|done].
  destruct (matmul Θ (transpose X)) as [p|]; [|done]. simpl.
  destruct (σ !! y) as [Y|]; [|done].
  destruct (sub p Y) as [tmp|]; [|done]. simpl.
  intros [= <- _]. apply nonneg_half_mul, asum_square_mask_nonneg.
Qed.

(** ** The same array passed as [theta] and as [x] *)

Lemma shaped_aliased_next r k A Y alpha beta :
  shaped r k A → shaped r k (aliased_next A Y alpha beta).
Proof.
  intros HA. unfold aliased_next. cbv zeta.
  apply shaped_descend, shaped_descend, HA.
Qed.

Lemma gradient_step_same_object a y A Y r k alpha beta σ :
  σ !! a = Some A → σ !! y = Some Y →
  shaped r k A → shaped r r Y →
  gradient_step a a y alpha beta σ
  = (Ok tt, <[a := aliased_next A Y alpha beta]> σ).
Proof.
  intros La Ly HA HY. unfold gradient_step.
  rewrite !(bind_load a A) by done.
  rewrite (matmul_prediction A A Y r r k) by done.
  rewrite bind_np_Some, (bind_load y Y) by done.
  destruct (sub_mask_residual A A Y r r k) as (tmp & -> & Hm); try done.
  rewrite bind_np_Some. cbv zeta. rewrite Hm.
  rewrite (bind_load a A) by done.
  destruct (add_delta_x A A Y r r k HA HA HY beta) as (g & -> & Hdx).
  rewrite bind_np_Some, (bind_load a A) by done.
  rewrite Hdx, bind_np_Some, (bind_load a A) by done.
  destruct (add_delta_theta A A Y r r k HA HA HY beta) as (g' & -> & Hdθ).
  rewrite bind_np_Some, (bind_load a A) by done.
  rewrite Hdθ, bind_np_Some, (bind_load a A) by done.
  rewrite (isub_descend r k) by (done || by apply shaped_delta_x).
  rewrite bind_np_Some, bind_store.
  rewrite (bind_load a (descend A (delta_x (residual A A Y) A A beta) alpha))
    by apply lookup_insert_eq.
  rewrite (isub_descend r k)
    by (by apply shaped_descend || by apply shaped_delta_theta).
  rewrite bind_np_Some. unfold store. rewrite insert_insert_eq. reflexivity.
Qed.

Lemma for_range_same_object a y Y r k alpha beta n : ∀ σ A,
  y ≠ a → σ !! a = Some A → σ !! y = Some Y →
  shaped r k A → shaped r r Y →
  for_range n (gradient_step a a y alpha beta) σ
  = (Ok tt, <[a := Nat.iter n (λ A, aliased_next A Y alpha beta) A]> σ).
Proof.
  induction n as [|n IH]; intros σ A Hya La Ly HA HY.
  - simpl. unfold ret. rewrite insert_id by done. done.
  - replace (S n) with (1 + n)%nat by lia. 
    change (for_range (1 + n) ?b σ) with ((b ;; for_range n b) σ).
    unfold bind at 1.
    rewrite (gradient_step_same_object a y A Y r k) by done.
    rewrite (IH _ (aliased_next A Y alpha beta)); try done.
    + rewrite insert_insert_eq. f_equal. f_equal.
      change (1 + n)%nat with (S n). rewrite Nat.iter_succ_r. done.
    + apply lookup_insert_eq.
    + by rewrite lookup_insert_ne.
    + by apply shaped_aliased_next.
Qed.

(** ** No rating is known *)

Section NoRating.
Context (Θ X Y : ndarray) (u i k : nat).
Hypothesis HΘ : shaped u k Θ.
Hypothesis HX : shaped i k X.
Hypothesis HY : shaped u i Y.
Hypothesis Hmiss : all_entries is_nan Y = true.

Lemma residual_no_rating a b :
  (a < u)%nat → (b < i)%nat → get (residual Θ X Y) a b = 0.
Proof using HΘ HX HY Hmiss.
  intros Ha Hb. unfold residual.
  destruct HΘ as (-> & _), HX as (-> & _).
  rewrite get_mk by done. cbv zeta. rewrite sub_nan_r; [done|].
  by apply (all_entries_get is_nan u i).
Qed.

Lemma half_sum_squares_no_rating : half_sum_squares (residual Θ X Y) = 0.
Proof using HΘ HX HY Hmiss.
  unfold half_sum_squares.
  replace (sum2 _ _ _) with 0; [reflexivity|]. symmetry.
  pose proof (shaped_residual Θ X Y u i k HΘ HX) as (-> & -> & _).
  unfold sum2. apply fold_left_zeros; [apply not_neg_zero_0|].
  intros [a b] [[_ Ha]%List.in_seq [_ Hb]%List.in_seq]%in_prod_iff.
  simpl in *. rewrite residual_no_rating by lia. done.
Qed.

Hypothesis HfΘ : all_entries is_finite Θ = true.
Hypothesis HfX : all_entries is_finite X = true.

Lemma next_x_no_rating alpha :
  is_finite alpha = true → (0 <? alpha) = true →
  next_x Θ X Y alpha 0 = X.
Proof using HΘ HX HY Hmiss HfΘ HfX.
  intros Hα Hpos. unfold next_x, descend.
  pose proof HX as (HXr & HXc & _). pose proof HΘ as (HΘr & HΘc & _).
  rewrite HXr, HXc.
  transitivity (mk i k (get X)); [|by apply mk_get].
  apply mk_ext. intros b c Hb Hc. unfold delta_x.
  rewrite HXr, HXc, HΘr, get_mk by done.
  rewrite sumf_zeros.
  - rewrite add_a_zero; [|apply not_neg_zero_0|].
    + rewrite pos_mul_zero by done. apply sub_zero.
    + apply zero_mul_fin. by apply (all_entries_get is_finite i k).
  - intros a Ha. rewrite residual_no_rating by done.
    apply zero_mul_fin. by apply (all_entries_get is_finite u k).
Qed.

Lemma next_theta_no_rating alpha :
  is_finite alpha = true → (0 <? alpha) = true →
  next_theta Θ X Y alpha 0 = Θ.
Proof using HΘ HX HY Hmiss HfΘ HfX.
  intros Hα Hpos. unfold next_theta, descend.
  pose proof HX as (HXr & HXc & _). pose proof HΘ as (HΘr & HΘc & _).
  rewrite HΘr, HΘc.
  transitivity (mk u k (get Θ)); [|by apply mk_get].
  apply mk_ext. intros a c Ha Hc. unfold delta_theta.
  rewrite HXr, HΘc, HΘr, get_mk by done.
  rewrite sumf_zeros.
  - rewrite add_a_zero; [|apply not_neg_zero_0|].
    + rewrite pos_mul_zero by done. apply sub_zero.
    + apply zero_mul_fin. by apply (all_entries_get is_finite u k).
  - intros b Hb. rewrite residual_no_rating by done.
    apply zero_mul_fin. by apply (all_entries_get is_finite i k).
Qed.

Lemma descent_no_rating alpha n :
  is_finite alpha = true → (0 <? alpha) = true →
  descent n Θ X Y alpha 0 = (Θ, X).
Proof using HΘ HX HY Hmiss HfΘ HfX.
  intros Hα Hpos. induction n as [|n IH]; [done|]. simpl.
  rewrite next_x_no_rating, next_theta_no_rating by done. exact IH.
Qed.
End NoRating.

(** ** An item that nobody has rated *)

Lemma row_transpose r c a j :
  shaped r c a → (j < c)%nat → row (transpose a) j = col a j.
Proof.
  intros Ha Hj. rewrite (col_get r c) by done.
  destruct Ha as (<- & <- & _). unfold transpose. by rewrite row_mk.
Qed.

(** ** The mask *)

Lemma mask_nan_idempotent a : mask_nan (mask_nan a) = mask_nan a.
Proof.
  unfold mask_nan at 1 3. simpl nrows. simpl ncols.
  apply mk_ext. intros i j Hi Hj.
  unfold mask_nan. rewrite get_mk by done.
  destruct (is_nan (get a i j)) eqn:E; [reflexivity|]. by rewrite E.
Qed.

(** ** The loop of the notebook on any shapes *)

Lemma reads_only_writes_only {A} L (m : M A) : reads_only m → writes_only L m.
Proof. intros H σ l _. by rewrite H. Qed.

Lemma training_loop_writes n : ∀ j theta x y alpha beta costs,
  writes_only [x; theta] (training_loop n j theta x y alpha beta costs).
Proof.
  induction n as [|n IH]; intros j theta x y alpha beta costs; simpl.
  - apply writes_only_ret.
  - intros σ l Hl. unfold bind at 1.
    pose proof (gradient_descent_writes theta x y 1 alpha beta σ l Hl) as Hg.
    destruct (gradient_descent theta x y 1 alpha beta σ) as [[[t' x']|e] σ1] eqn:E;
      [|done].
    assert (t' = theta ∧ x' = x) as [-> ->].
    { unfold gradient_descent, bind, ret in E.
      destruct (for_range _ _ σ) as [[[]|?] ?]; by inversion E. }
    simpl. unfold bind at 1. rewrite <- Hg.
    pose proof (cost_heap theta x y σ1) as Hc.
    destruct (cost theta x y σ1) as [[c|e] σ2]; simpl in *; subst σ2; [|done].
    by apply IH.
Qed.

(** ** The loop of the notebook, pass by pass *)

Lemma step_shapes_ok_cost Θ X Y :
  step_shapes_ok Θ X Y = true → cost_shapes_ok Θ X Y = true.
Proof.
  rewrite step_shapes_ok_true, cost_shapes_ok_true. intros (? & ? & ?).
  split; [done|]. split; lia.
Qed.

Lemma gradient_descent_one theta x y alpha beta σ :
  gradient_descent theta x y 1 alpha beta σ
  = (let* _ := gradient_step theta x y alpha beta in ret (theta, x)) σ.
Proof.
  unfold gradient_descent. change (Z.to_nat 1) with 1%nat. simpl for_range.
  unfold bind, ret. destruct (gradient_step _ _ _ _ _ σ) as [[[]|e] σ']; done.
Qed.

Lemma training_loop_shapes_ok theta x y alpha beta Y n : ∀ j costs σ Θ X,
  σ !! theta = Some Θ → σ !! x = Some X → σ !! y = Some Y →
  theta ≠ x → y ≠ theta → y ≠ x →
  step_shapes_ok Θ X Y = true →
  ∃ cs Θ' X',
    training_loop n j theta x y alpha beta costs σ
    = (Ok (costs ++ cs), <[theta := Θ']> (<[x := X']> σ))
    ∧ map fst cs = map (λ p, (j + Z.of_nat p)%Z) (seq 0 n)
    ∧ Forall (λ r, nonneg r.2) cs.
Proof.
  induction n as [|n IH]; intros j costs σ Θ X Lθ Lx Ly Hθx Hyθ Hyx Hok.
  - exists [], Θ, X. split; [|done]. simpl. unfold ret. rewrite app_nil_r. f_equal.
    rewrite (insert_id σ x X) by done. rewrite insert_id by done. done.
  - simpl training_loop. unfold bind at 1. rewrite gradient_descent_one.
    destruct (gradient_step_shapes_ok theta x y alpha beta σ Θ X Y)
      as (Θ1 & X1 & E & Hs1 & Hs2 & Hs3 & Hs4); try done.
    unfold bind at 1. rewrite E. unfold ret. cbv beta iota. simpl fst. simpl snd.
    set (σ1 := <[theta := Θ1]> (<[x := X1]> σ)).
    assert (L1θ : σ1 !! theta = Some Θ1) by apply lookup_insert_eq.
    assert (L1x : σ1 !! x = Some X1).
    { unfold σ1. rewrite lookup_insert_ne by done. apply lookup_insert_eq. }
    assert (L1y : σ1 !! y = Some Y).
    { unfold σ1. rewrite !lookup_insert_ne by done. done. }
    assert (Hok1 : step_shapes_ok Θ1 X1 Y = true).
    { by rewrite (step_shapes_ok_shapes Θ X Θ1 X1 Y). }
    pose proof (cost_shapes theta x y σ1 Θ1 X1 Y L1θ L1x L1y) as Hc.
    rewrite (step_shapes_ok_cost _ _ _ Hok1) in Hc. destruct Hc as (v & Hc).
    unfold bind at 1. rewrite Hc.
    destruct (IH (j + 1)%Z (costs ++ [(j, v)]) σ1 Θ1 X1)
      as (cs & Θ2 & X2 & E2 & Hnum & Hnn); try done.
    exists ((j, v) :: cs), Θ2, X2. split; [|split].
    + rewrite E2. rewrite <- app_assoc. simpl. f_equal. unfold σ1.
      rewrite (insert_insert_ne _ x theta) by done.
      rewrite !insert_insert_eq. done.
    + simpl. f_equal; [f_equal; lia|]. rewrite Hnum, <- seq_shift, map_map.
      apply map_ext. intros p. lia.
    + constructor; [|done]. simpl. by apply (cost_returns_nonneg theta x y σ1 v σ1).
Qed.

Lemma training_loop_shapes_bad theta x y alpha beta Y n j costs σ Θ X :
  σ !! theta = Some Θ → σ !! x = Some X → σ !! y = Some Y →
  step_shapes_ok Θ X Y = false →
  training_loop (S n) j theta x y alpha beta costs σ = (Raise ValueError, σ).
Proof.
  intros Lθ Lx Ly Hbad. simpl training_loop. unfold bind at 1.
  rewrite gradient_descent_one. unfold bind at 1.
  rewrite (gradient_step_shapes_bad theta x y alpha beta σ Θ X Y) by done.
  reflexivity.
Qed.

(** * Further properties of the notebook's functions *)



(** X2.  [cost] on arrays of any shapes.  It raises [ValueError] exactly
    when [theta] and [x] differ in their number of columns or numpy cannot
    broadcast [theta @ x.T] with [y]; otherwise it returns.  Whatever the
    shapes and the entries (missing ratings, infinities, overflow), a value
    it returns is never negative and never not-a-number, and the heap is as
    it was. *)
Theorem cost_total
    (σ : gmap loc ndarray) (theta x y : loc) (Θ X Y : ndarray) :
  σ !! theta = Some Θ → σ !! x = Some X → σ !! y = Some Y →
  (cost_shapes_ok Θ X Y = false → cost theta x y σ = (Raise ValueError, σ))
  ∧ (cost_shapes_ok Θ X Y = true →
     ∃ v, cost theta x y σ = (Ok v, σ)
          ∧ (0 <=? v) = true ∧ is_nan v = false).
Proof.
  intros Lθ Lx Ly.
  pose proof (cost_shapes theta x y σ Θ X Y Lθ Lx Ly) as H.
  split; intros Hs; rewrite Hs in H; [done|].
  destruct H as (v & E). exists v. split; [done|].
  pose proof (cost_returns_nonneg theta x y σ v σ E) as Hnn.
  split; [by apply nonneg_leb|by apply nonneg_not_nan].
Qed.

Lemma cost_total_witness :
  ∃ v, cost 0 1 2 bcast_heap = (Ok v, bcast_heap)
       ∧ (0 <=? v) = true ∧ is_nan v = false.
Proof.
  apply (cost_total bcast_heap 0 1 2 bcast_theta bcast_x bcast_y);
    reflexivity.
Defined.

(** X3.  A rating matrix with a single row, or a single column, is used as
    if that row were every user's, or that column every item's: numpy
    broadcasts it in [theta @ x.T - y].  With [theta] users×k and [x]
    items×k, [gradient_descent] and [cost] on such a [y] compute what they
    compute on the users×items matrix [expand users items y], whose entry
    [(a, b)] is the entry of [y] in row [a] (row 0 if [y] has one row) and
    column [b] (column 0 if [y] has one column). *)
Theorem rating_matrix_broadcast
    (σ : gmap loc ndarray) (theta x y : loc) (Θ X Y : ndarray)
    (u i k : nat) (max_iter : Z) (alpha beta : float) :
  σ !! theta = Some Θ → σ !! x = Some X → σ !! y = Some Y →
  theta ≠ x → y ≠ theta → y ≠ x →
  shaped u k Θ → shaped i k X →
  nrows Y = u ∨ nrows Y = 1%nat → ncols Y = i ∨ ncols Y = 1%nat →
  let Y' := expand u i Y in
  gradient_descent theta x y max_iter alpha beta σ
  = (Ok (theta, x),
     <[theta := (descent (Z.to_nat max_iter) Θ X Y' alpha beta).1]>
       (<[x := (descent (Z.to_nat max_iter) Θ X Y' alpha beta).2]> σ))
  ∧ cost theta x y σ = (Ok (half_sum_squares (residual Θ X Y')), σ)
  ∧ shaped u i Y'
  ∧ (∀ a b, (a < u)%nat → (b < i)%nat →
       get Y' a b = get Y (if Nat.eqb (nrows Y) 1 then 0%nat else a)
                          (if Nat.eqb (ncols Y) 1 then 0%nat else b))
  ∧ (shaped u i Y → Y' = Y).
Proof.
  intros Lθ Lx Ly Hθx Hyθ Hyx HΘ HX HYr HYc Y'. subst Y'.
  split; [|split; [|split; [|split]]].
  - unfold gradient_descent, bind.
    rewrite (for_range_broadcast theta x y Y u i k alpha beta _ σ Θ X) by done.
    reflexivity.
  - by apply (cost_broadcast theta x y Θ X Y u i k).
  - apply shaped_expand.
  - intros a b Ha Hb. unfold expand. rewrite get_mk by done. reflexivity.
  - apply expand_shaped.
Qed.

Lemma rating_matrix_broadcast_witness :
  gradient_descent 0 1 2 3 0x1p-3 0 bcast_heap
  = (Ok (0%nat, 1%nat),
     <[0%nat := (descent 3 bcast_theta bcast_x (expand 2 1 bcast_y) 0x1p-3 0).1]>
       (<[1%nat := (descent 3 bcast_theta bcast_x (expand 2 1 bcast_y) 0x1p-3 0).2]>
          bcast_heap))
  ∧ expand 2 1 bcast_y = Ndarray 2 1 [ [1]; [1] ].
Proof.
  split; [|reflexivity].
  apply (rating_matrix_broadcast bcast_heap 0 1 2 bcast_theta bcast_x bcast_y
           2 1 1 3 0x1p-3 0);
    [ reflexivity | reflexivity | reflexivity | discriminate | discriminate
    | discriminate | solve_shaped | solve_shaped | by right | by left ].
Defined.

(** X4.  After [tmp[np.isnan(tmp)] = 0] no entry of [tmp] is not-a-number,
    the shape is the same, and running the statement a second time changes
    nothing. *)
Theorem mask_leaves_no_nan (a : ndarray) :
  mask_nan (mask_nan a) = mask_nan a
  ∧ shaped (nrows a) (ncols a) (mask_nan a)
  ∧ ∀ i j, (i < nrows a)%nat → (j < ncols a)%nat →
           is_nan (get (mask_nan a) i j) = false.
Proof.
  split; [apply mask_nan_idempotent|]. split; [apply shaped_mk|].
  intros i j. apply mask_nan_not_nan.
Qed.

Lemma mask_leaves_no_nan_witness :
  is_nan (get example_y 0 3) = true
  ∧ is_nan (get (mask_nan example_y) 0 3) = false.
Proof.
  split; [reflexivity|].
  apply (mask_leaves_no_nan example_y); simpl; lia.
Defined.

(** X5.  The loop of the notebook, on arrays of any shapes.  When the
    shapes are those a step accepts, the loop returns: it has added [n]
    records after those it was given, numbered from the first index on, one
    by one, and every cost recorded is a number and is not negative.  When
    they are not, and there is at least one pass to run, the first call of
    [gradient_descent] raises [ValueError]: nothing is recorded and nothing
    has been written. *)
Theorem training_loop_records
    (σ : gmap loc ndarray) (theta x y : loc) (Θ X Y : ndarray)
    (n : nat) (j : Z) (alpha beta : float) (costs : list (Z * float)) :
  σ !! theta = Some Θ → σ !! x = Some X → σ !! y = Some Y →
  theta ≠ x → y ≠ theta → y ≠ x →
  (step_shapes_ok Θ X Y = true →
   ∃ cs σ',
     training_loop n j theta x y alpha beta costs σ = (Ok (costs ++ cs), σ')
     ∧ map fst cs = map (λ p, (j + Z.of_nat p)%Z) (seq 0 n)
     ∧ Forall (λ r, (0 <=? r.2) = true ∧ is_nan r.2 = false) cs)
  ∧ (step_shapes_ok Θ X Y = false → (0 < n)%nat →
     training_loop n j theta x y alpha beta costs σ = (Raise ValueError, σ)).
Proof.
  intros Lθ Lx Ly Hθx Hyθ Hyx. split.
  - intros Hok.
    destruct (training_loop_shapes_ok theta x y alpha beta Y n j costs σ Θ X)
      as (cs & Θ' & X' & E & Hnum & Hnn); try done.
    exists cs, (<[theta := Θ']> (<[x := X']> σ)). split; [done|]. split; [done|].
    eapply Forall_impl; [exact Hnn|]. intros r Hr. simpl in Hr.
    split; [by apply nonneg_leb|by apply nonneg_not_nan].
  - intros Hbad Hn. destruct n as [|n]; [lia|].
    by apply (training_loop_shapes_bad theta x y alpha beta Y n j costs σ Θ X).
Qed.

Lemma training_loop_records_witness :
  ∃ cs σ',
    training_loop 3 0 0 1 2 0x1p-10 0 [] example_heap = (Ok ([] ++ cs), σ')
    ∧ map fst cs = map (λ p, (0 + Z.of_nat p)%Z) (seq 0 3)
    ∧ Forall (λ r, (0 <=? r.2) = true ∧ is_nan r.2 = false) cs.
Proof.
  apply (training_loop_records example_heap 0 1 2
           example_theta example_x example_y 3 0 0x1p-10 0 []);
    try reflexivity; discriminate.
Defined.

(** X6.  [gradient_descent] and the loop of the notebook write to the two
    arrays they are given as [theta] and [x] and to nothing else: any other
    array object holds afterwards what it held, whether the call returned or
    raised.  And what [gradient_descent] returns, when it returns, is the
    pair of the very two objects it was given, not copies. *)
Theorem other_objects_untouched
    (σ : gmap loc ndarray) (theta x y l : loc) (max_iter : Z) (n : nat) (j : Z)
    (alpha beta : float) (costs : list (Z * float)) :
  l ≠ theta → l ≠ x →
  (gradient_descent theta x y max_iter alpha beta σ).2 !! l = σ !! l
  ∧ (training_loop n j theta x y alpha beta costs σ).2 !! l = σ !! l
  ∧ ∀ r σ', gradient_descent theta x y max_iter alpha beta σ = (Ok r, σ') →
            r = (theta, x).
Proof.
  intros Hlθ Hlx.
  assert (Hl : l ∉ [x; theta]).
  { rewrite !elem_of_cons, elem_of_nil. intros [|[|[]]]; done. }
  split; [|split].
  - by apply gradient_descent_writes.
  - by apply training_loop_writes.
  - intros r σ'. unfold gradient_descent, bind, ret.
    destruct (for_range _ _ σ) as [[[]|e] σ1]; [|done]. by intros [= <- _].
Qed.

Lemma other_objects_untouched_witness :
  (gradient_descent 0 1 2 4 0x1p-10 0x1p-3 (<[7%nat := tiny_y]> example_heap)).2
    !! 7%nat
  = (<[7%nat := tiny_y]> example_heap) !! 7%nat.
Proof.
  pose proof (other_objects_untouched (<[7%nat := tiny_y]> example_heap)
                0 1 2 7 4 0 0 0x1p-10 0x1p-3 []) as H.
  apply H; discriminate.
Defined.

(** X7.  When one and the same array is passed as [theta] and as [x] (with
    a square rating matrix), the two in-place updates of a pass land on that
    one object: both gradients are computed from the array as the pass finds
    it, [x -= alpha * dx] changes it, and [theta -= alpha * dtheta] then
    subtracts from the array already changed.  After the call the array
    holds [(A − alpha·ΔX) − alpha·ΔΘ], iterated [max_iter] times. *)
Theorem same_array_twice
    (σ : gmap loc ndarray) (a y : loc) (A Y : ndarray)
    (r k : nat) (max_iter : Z) (alpha beta : float) :
  σ !! a = Some A → σ !! y = Some Y → y ≠ a →
  shaped r k A → shaped r r Y →
  gradient_descent a a y max_iter alpha beta σ
  = (Ok (a, a),
     <[a := Nat.iter (Z.to_nat max_iter) (λ A, aliased_next A Y alpha beta) A]> σ)
  ∧ ∀ A0, shaped r k A0 →
      let R := residual A0 A0 Y in
      shaped r k (aliased_next A0 Y alpha beta)
      ∧ ∀ p c, (p < r)%nat → (c < k)%nat →
          get (aliased_next A0 Y alpha beta) p c
          = get A0 p c
            - alpha * (sumf r (λ q, get R q p * get A0 q c) + beta * get A0 p c)
            - alpha * (sumf r (λ q, get R p q * get A0 q c) + beta * get A0 p c).
Proof.
  intros La Ly Hya HA HY. split.
  - unfold gradient_descent, bind.
    rewrite (for_range_same_object a y Y r k alpha beta _ σ A) by done.
    reflexivity.
  - intros A0 HA0 R. subst R. split; [by apply shaped_aliased_next|].
    intros p c Hp Hc. destruct HA0 as (HAr & HAc & _).
    unfold aliased_next. cbv zeta.
    rewrite get_descend by (unfold descend; simpl; lia).
    rewrite get_descend by lia.
    unfold delta_x at 1, delta_theta at 1. rewrite !get_mk by lia.
    rewrite HAr. reflexivity.
Qed.

Lemma same_array_twice_witness :
  gradient_descent 0 0 2 1 0.5 0 tiny_heap
  = (Ok (0%nat, 0%nat), <[0%nat := Ndarray 1 1 [ [0] ] ]> tiny_heap).
Proof.
  pose proof (same_array_twice tiny_heap 0 2 tiny_theta tiny_y 1 1 1 0.5 0) as H.
  destruct H as (H & _); [reflexivity|reflexivity|discriminate
                         |solve_shaped|solve_shaped|].
  rewrite H. reflexivity.
Defined.

(** X8.  When no rating is known (every entry of [y] is missing, or [y] has
    no entry at all), on compatible shapes, [cost] is exactly 0 whatever
    the factor matrices hold; and with finite factor matrices, a finite
    positive learning rate and no regularisation, [gradient_descent]
    learns nothing: after any number of steps every array holds what it
    held. *)
Theorem no_rating_known
    (σ : gmap loc ndarray) (theta x y : loc) (Θ X Y : ndarray)
    (u i k : nat) (max_iter : Z) (alpha : float) :
  σ !! theta = Some Θ → σ !! x = Some X → σ !! y = Some Y →
  theta ≠ x → y ≠ theta → y ≠ x →
  shaped u k Θ → shaped i k X → shaped u i Y →
  all_entries is_nan Y = true →
  cost theta x y σ = (Ok 0, σ)
  ∧ (all_entries is_finite Θ = true → all_entries is_finite X = true →
     is_finite alpha = true → (0 <? alpha) = true →
     gradient_descent theta x y max_iter alpha 0 σ = (Ok (theta, x), σ)).
Proof.
  intros Lθ Lx Ly Hθx Hyθ Hyx HΘ HX HY Hmiss. split.
  - rewrite (cost_compatible theta x y σ Θ X Y u i k) by done.
    by rewrite (half_sum_squares_no_rating Θ X Y u i k).
  - intros HfΘ HfX Hα Hpos.
    rewrite (gradient_descent_descent theta x y Y u i k alpha 0)
      with (Θ := Θ) (X := X) by done.
    rewrite (descent_no_rating Θ X Y u i k) by done. simpl fst. simpl snd.
    rewrite (insert_id σ x X) by done. rewrite insert_id by done. reflexivity.
Qed.

Lemma no_rating_known_witness :
  cost 0 1 2 unrated_heap = (Ok 0, unrated_heap)
  ∧ gradient_descent 0 1 2 5 0.5 0 unrated_heap = (Ok (0%nat, 1%nat), unrated_heap).
Proof.
  pose proof (no_rating_known unrated_heap 0 1 2 tiny_theta tiny_x unrated_y
                1 1 1 5 0.5) as H.
  destruct H as (Hc & Hg);
    [ reflexivity | reflexivity | reflexivity | discriminate | discriminate
    | discriminate | solve_shaped | solve_shaped | solve_shaped | reflexivity | ].
  split; [exact Hc|]. apply Hg; reflexivity.
Defined.

(** X9.  An item that nobody has rated (its column of [y] is all missing),
    with [beta = 0], on compatible shapes.  A step is what the update rule
    says.  When the entries of [Θ] and of that item's row of [X] are finite
    and the learning rate is a positive finite number, the step leaves that
    item's row of [X] as it was.  And when that row is finite, then
    whatever finite features the item has instead, the step writes the same
    [Θ] and the same rows of [X] for every other item. *)
Theorem unrated_item
    (σ : gmap loc ndarray) (theta x y : loc) (Θ X Y : ndarray)
    (u i k b0 : nat) (alpha : float) :
  σ !! theta = Some Θ → σ !! x = Some X → σ !! y = Some Y →
  theta ≠ x →
  shaped u k Θ → shaped i k X → shaped u i Y →
  (b0 < i)%nat →
  forallb is_nan (col Y b0) = true →
  gradient_step theta x y alpha 0 σ
  = (Ok tt, <[theta := next_theta Θ X Y alpha 0]>
              (<[x := next_x Θ X Y alpha 0]> σ))
  ∧ (all_entries is_finite Θ = true →
     forallb is_finite (row X b0) = true →
     is_finite alpha = true → (0 <? alpha) = true →
     row (next_x Θ X Y alpha 0) b0 = row X b0)
  ∧ (forallb is_finite (row X b0) = true →
     ∀ v, length v = k → forallb is_finite v = true →
       let Xv := set_row b0 v X in
       next_theta Θ Xv Y alpha 0 = next_theta Θ X Y alpha 0
       ∧ ∀ b, (b < i)%nat → b ≠ b0 →
           row (next_x Θ Xv Y alpha 0) b = row (next_x Θ X Y alpha 0) b).
Proof.
  intros Lθ Lx Ly Hθx HΘ HX HY Hb0 Hmiss.
  pose proof HΘ as (HΘr & HΘc & _). pose proof HX as (HXr & HXc & _).
  pose proof (shaped_transpose u i Y HY) as HYt.
  assert (Hmiss' : forallb is_nan (row (transpose Y) b0) = true).
  { by rewrite (row_transpose u i). }
  split; [by apply (gradient_step_compatible theta x y Θ X Y u i k)|]. split.
  - intros HfΘ HfX Hfα Hα.
    rewrite <- (next_theta_swap Θ X Y u i k HΘ HX HY).
    unfold next_theta, descend. rewrite HXr, HXc, row_mk by done.
    rewrite (row_get i k X b0) by done.
    apply map_ext_in. intros c [_ Hc]%List.in_seq.
    rewrite (delta_theta_missing_row X Θ (transpose Y) i u k b0) by (done || lia).
    rewrite pos_mul_zero by done. apply sub_zero.
  - intros HfX v Hv Hfv Xv.
    assert (HXv : shaped i k Xv) by (by apply shaped_set_row).
    split.
    + rewrite <- (next_x_swap Θ Xv Y u i k HΘ HXv HY).
      rewrite <- (next_x_swap Θ X Y u i k HΘ HX HY).
      unfold next_x, Xv.
      rewrite (delta_x_set_row X Θ (transpose Y) i u k b0) by done.
      reflexivity.
    + intros b Hb Hne.
      rewrite <- (next_theta_swap Θ Xv Y u i k HΘ HXv HY).
      rewrite <- (next_theta_swap Θ X Y u i k HΘ HX HY).
      unfold next_theta, descend. simpl nrows. simpl ncols.
      rewrite HXr, HXc, !row_mk by done.
      apply map_ext_in. intros c [_ Hc]%List.in_seq.
      unfold Xv. rewrite get_set_row_ne by done.
      rewrite (delta_theta_set_row X Θ (transpose Y) i u k b0) by (done || lia).
      reflexivity.
Qed.

Lemma unrated_item_witness :
  row (next_x tiny_theta fitted_x fitted_y 0.5 0) 1 = row fitted_x 1.
Proof.
  pose proof (unrated_item fitted_heap 0 1 2 tiny_theta fitted_x fitted_y
                1 2 1 1 0.5) as H.
  destruct H as (_ & H & _);
    [ reflexivity | reflexivity | reflexivity | discriminate
    | solve_shaped | solve_shaped | solve_shaped | lia | reflexivity | ].
  apply H; reflexivity.
Defined.
